(** * Pearl: hindsight experience replay and proximal policy optimisation

    A shallow embedding of
    - [pearl/replay_buffers/sequential_decision_making/hindsight_experience_replay_buffer.py]
    - [pearl/policy_learners/sequential_decision_making/ppo.py]
    and the properties of the specification stated over it. *)

From Stdlib Require Import ZArith QArith Qcanon Lia.
From stdpp Require Import gmap list.

Set Default Proof Using "Type".
Local Open Scope Z_scope.

(** ** Python exceptions *)

(** The exceptions that reach the caller.  [RuntimeError] is what torch
    raises when the source of an assignment cannot be expanded to the shape
    of its destination; [IndexError] is Python's index-out-of-range error;
    [TypeError] is raised by arithmetic on [None]; [OtherError] stands for
    whatever a user callback may raise. *)
Inductive exception :=
  | AssertionError
  | RuntimeError
  | IndexError
  | TypeError
  | OtherError (tag : nat).

Global Instance exception_eq_dec : EqDecision exception.
Proof. solve_decision. Defined.

(** A value or the exception raised instead; the first exception ends a
    sequence of steps. *)
Global Instance except_ret : MRet (sum exception) := λ X, inr.
Global Instance except_bind : MBind (sum exception) :=
  λ X Y k r, match r with inl e => inl e | inr x => k x end.

(** ** One-dimensional tensors *)

Module Torch.
Section tensor.
Context {A : Type}.

(** Normalisation of one bound of a slice of step 1 over a sequence of
    length [n]: a negative bound counts from the end, and both kinds are
    clamped to [0, n].  Slicing never raises. *)
Definition slice_index (n : nat) (i : Z) : nat :=
  if i <? 0 then Z.to_nat (Z.max 0 (i + Z.of_nat n))
  else Z.to_nat (Z.min i (Z.of_nat n)).

(** [t[:stop]] read as a value. *)
Definition slice_to (t : list A) (stop : Z) : list A :=
  take (slice_index (length t) stop) t.

(** [t[start:]] read as a value. *)
Definition slice_from (t : list A) (start : Z) : list A :=
  drop (slice_index (length t) start) t.

(** The source of an assignment is expanded to the shape of its
    destination.  In one dimension, for a destination of [n] elements:
    the sizes agree, or the source has exactly one element, which is
    repeated; any other source is refused (torch raises [RuntimeError]:
    the expanded size must match the existing size). *)
Definition expand (src : list A) (n : nat) : option (list A) :=
  if decide (length src = n) then Some src
  else match src with
       | [x] => Some (replicate n x)
       | _ => None
       end.

(** [t[start:] = src]: the elements from [start] on are replaced by the
    expanded source; in place, the length of [t] never changes. *)
Definition setslice_from (t : list A) (start : Z) (src : list A)
  : option (list A) :=
  let s := slice_index (length t) start in
  v ← expand src (length t - s)%nat;
  Some (take s t ++ v).

(** Two tensors of one length that agree before the slice [[i:]]. *)
Definition same_prefix (i : Z) (t t' : list A) : Prop :=
  length t = length t' ∧
  take (slice_index (length t) i) t = take (slice_index (length t) i) t'.

End tensor.
End Torch.

(** ** The hindsight experience replay buffer *)

Module HER.
Import Torch.

(** Tensor objects are referred to by their identity: two arguments
    with one identity are one object, and a write through either is seen
    through both. *)
Definition loc := positive.

Section her.
Context {A Action ActionSpace Reward : Type}.

(** What the underlying store records for one push. *)
Record Transition := mkTransition {
  tr_state : list A;
  tr_action : Action;
  tr_reward : Reward;
  tr_next_state : list A;
  tr_curr_available_actions : ActionSpace;
  tr_next_available_actions : ActionSpace;
  tr_action_space : ActionSpace;
  tr_done : bool;
  tr_cost : option Reward
}.

(** The tuple appended to [self._trajectory]: the two tensors by
    reference, and no reward. *)
Record Entry := mkEntry {
  en_state : loc;
  en_action : Action;
  en_next_state : loc;
  en_curr_available_actions : ActionSpace;
  en_next_available_actions : ActionSpace;
  en_action_space : ActionSpace;
  en_done : bool;
  en_cost : option Reward
}.

(** The attributes set by [__init__], the pending trajectory and the
    store of the base class. *)
Record HindsightExperienceReplayBuffer := mkHER {
  capacity : Z;
  goal_dim : Z;
  reward_fn : list A → Action → exception + Reward;
  done_fn : option (list A → Action → exception + bool);
  trajectory : list Entry;
  store : list Transition
}.

(** The object heap together with the buffer.  Every identity denotes a
    tensor: one that the heap does not hold reads as the empty tensor. *)
Record world := mkWorld {
  heap : gmap loc (list A);
  self : HindsightExperienceReplayBuffer
}.

(** [__init__]. *)
Definition init (capacity goal_dim : Z)
    (reward_fn : list A → Action → exception + Reward)
    (done_fn : option (list A → Action → exception + bool))
  : HindsightExperienceReplayBuffer :=
  {| capacity := capacity; goal_dim := goal_dim; reward_fn := reward_fn;
     done_fn := done_fn; trajectory := []; store := [] |}.

(** *** Computations: state that survives an exception *)

Definition M (X : Type) : Type := world → (exception + X) * world.

Definition ret {X} (x : X) : M X := λ w, (inr x, w).
Definition raise {X} (e : exception) : M X := λ w, (inl e, w).
Definition bind {X Y} (c : M X) (k : X → M Y) : M Y :=
  λ w, match c w with
       | (inr x, w') => k x w'
       | (inl e, w') => (inl e, w')
       end.

(** The value of the tensor at [l]. *)
Definition deref (l : loc) : M (list A) := λ w, (inr (heap w !!! l), w).
Definition assign (l : loc) (t : list A) : M unit :=
  λ w, (inr tt, {| heap := <[l := t]> (heap w); self := self w |}).
Definition get_self : M HindsightExperienceReplayBuffer :=
  λ w, (inr (self w), w).
Definition set_trajectory (tr : list Entry) : M unit :=
  λ w, (inr tt,
        {| heap := heap w;
           self := {| capacity := capacity (self w);
                      goal_dim := goal_dim (self w);
                      reward_fn := reward_fn (self w);
                      done_fn := done_fn (self w);
                      trajectory := tr;
                      store := store (self w) |} |}).
Definition set_store (st : list Transition) : M unit :=
  λ w, (inr tt,
        {| heap := heap w;
           self := {| capacity := capacity (self w);
                      goal_dim := goal_dim (self w);
                      reward_fn := reward_fn (self w);
                      done_fn := done_fn (self w);
                      trajectory := trajectory (self w);
                      store := st |} |}).
(** A user callback: its exception, if any, is raised here. *)
Definition call {X} (r : exception + X) : M X :=
  match r with inl e => raise e | inr x => ret x end.

Global Instance M_ret : MRet M := @ret.
Global Instance M_bind : MBind M := λ X Y k c, bind c k.

(** *** Tensor operations on the heap *)

(** A basic slice of a tensor is a view that shares its storage:
    [base[:stop]] is read through the heap whenever it is used. *)
Record View := mkView { base : loc; stop : nat }.

(** [l[:i]] *)
Definition getslice_to (l : loc) (i : Z) : M View :=
  t ← deref l;
  mret (mkView l (slice_index (length t) i)).

Definition read_view (v : View) : M (list A) :=
  t ← deref (base v);
  mret (take (stop v) t).

(** [l[start:] = src] *)
Definition setslice (l : loc) (start : Z) (src : View) : M unit :=
  v ← read_view src;
  t ← deref l;
  match setslice_from t start v with
  | None => raise RuntimeError
  | Some t' => assign l t'
  end.

(** Modelled from the spec: [assert_is_tensor_like] of
    [pearl.utils.tensor_like] is not among the sources.  States are
    vectors, every reference of the model denotes one, and the helper
    hands its argument back. *)
Definition assert_is_tensor_like (l : loc) : M loc := mret l.

(** Modelled from the spec: [push] of the base class
    [FIFOOffPolicyReplayBuffer], which is not among the sources.  It
    "records the transition verbatim" into the "append-only" Transition
    Store: the record holds the values that the two tensors have when the
    call is made.  [store] is the sequence of everything pushed so far;
    the base method touches neither the heap nor [self._trajectory]. *)
Definition super_push (state : loc) (action : Action) (reward : Reward)
    (next_state : loc) (curr_available_actions next_available_actions
    action_space : ActionSpace) (done : bool) (cost : option Reward)
  : M unit :=
  s ← deref state;
  ns ← deref next_state;
  b ← get_self;
  set_store (store b ++
    [mkTransition s action reward ns curr_available_actions
       next_available_actions action_space done cost]).

(** Modelled from the spec: the store is "capacity-bounded"; of all that
    was pushed it retains the most recent [capacity] records. *)
Definition memory (b : HindsightExperienceReplayBuffer) : list Transition :=
  drop (length (store b) - Z.to_nat (capacity b))%nat (store b).

(** *** [push] *)

(** The body of [for (...) in self._trajectory:]. *)
Fixpoint relabel (additional_goal : View) (traj : list Entry) : M unit :=
  match traj with
  | [] => mret tt
  | e :: rest =>
      b ← get_self;
      (* replace current_goal with additional_goal *)
      setslice (en_state e) (- goal_dim b) additional_goal;;
      setslice (en_next_state e) (- goal_dim b) additional_goal;;
      s ← deref (en_state e);
      r ← call (reward_fn b s (en_action e));
      d ← match done_fn b with
          | None => mret (en_done e)
          | Some f => s ← deref (en_state e); call (f s (en_action e))
          end;
      super_push (en_state e) (en_action e) r (en_next_state e)
        (en_curr_available_actions e) (en_next_available_actions e)
        (en_action_space e) d (en_cost e);;
      relabel additional_goal rest
  end.

Definition push (state : loc) (action : Action) (reward : Reward)
    (next_state : loc) (curr_available_actions next_available_actions
    action_space : ActionSpace) (done : bool) (cost : option Reward)
  : M unit :=
  next_state ← assert_is_tensor_like next_state;
  super_push state action reward next_state curr_available_actions
    next_available_actions action_space done cost;;
  b ← get_self;
  set_trajectory (trajectory b ++
    [mkEntry state action next_state curr_available_actions
       next_available_actions action_space done cost]);;
  if done then
    b ← get_self;
    additional_goal ← getslice_to next_state (- goal_dim b);  (* final mode *)
    relabel additional_goal (trajectory b);;
    set_trajectory []
  else mret tt.

(** *** The relabelling pass, in terms of values *)

(** The attributes that [push] never assigns. *)
Definition same_config (b b' : HindsightExperienceReplayBuffer) : Prop :=
  capacity b' = capacity b ∧ goal_dim b' = goal_dim b ∧
  reward_fn b' = reward_fn b ∧ done_fn b' = done_fn b.


(** One turn of the loop, with the calls spelled out. *)
Definition relabel_step (v : View) (e : Entry) (w : world)
  : (exception + unit) * world :=
  let g := goal_dim (self w) in
  match setslice (en_state e) (- g) v w with
  | (inl x, w1) => (inl x, w1)
  | (inr _, w1) =>
    match setslice (en_next_state e) (- g) v w1 with
    | (inl x, w2) => (inl x, w2)
    | (inr _, w2) =>
      match reward_fn (self w) (heap w2 !!! en_state e) (en_action e) with
      | inl x => (inl x, w2)
      | inr r =>
        match match done_fn (self w) with
              | None => inr (en_done e)
              | Some f => f (heap w2 !!! en_state e) (en_action e)
              end with
        | inl x => (inl x, w2)
        | inr d =>
            super_push (en_state e) (en_action e) r (en_next_state e)
              (en_curr_available_actions e) (en_next_available_actions e)
              (en_action_space e) d (en_cost e) w2
        end
      end
    end
  end.

(** The value of [additional_goal = next_state[: -self._goal_dim]]. *)
Definition additional_goal (b : HindsightExperienceReplayBuffer)
    (h : gmap loc (list A)) (next_state : loc) : list A :=
  slice_to (h !!! next_state) (- goal_dim b).

(** The tensor at [l] after [l[-self._goal_dim:] = goal], when the
    shapes allow the assignment. *)
Definition relabelled (b : HindsightExperienceReplayBuffer)
    (goal : list A) (h : gmap loc (list A)) (l : loc) : option (list A) :=
  setslice_from (h !!! l) (- goal_dim b) goal.

(** [t] is the record that the loop pushes for the entry [e]. *)
Definition relabelled_transition (b : HindsightExperienceReplayBuffer)
    (goal : list A) (h : gmap loc (list A)) (e : Entry) (t : Transition)
  : Prop :=
  relabelled b goal h (en_state e) = Some (tr_state t) ∧
  relabelled b goal h (en_next_state e) = Some (tr_next_state t) ∧
  tr_action t = en_action e ∧
  reward_fn b (tr_state t) (en_action e) = inr (tr_reward t) ∧
  match done_fn b with
  | None => tr_done t = en_done e
  | Some f => f (tr_state t) (en_action e) = inr (tr_done t)
  end ∧
  tr_curr_available_actions t = en_curr_available_actions e ∧
  tr_next_available_actions t = en_next_available_actions e ∧
  tr_action_space t = en_action_space e ∧
  tr_cost t = en_cost e.

(** The heap [h] differs from [h0] only behind the goal split. *)
Definition prefixes_kept (b : HindsightExperienceReplayBuffer)
    (h0 h : gmap loc (list A)) : Prop :=
  ∀ l, same_prefix (- goal_dim b) (h0 !!! l) (h !!! l).

(** An entry whose two assignments and whose callbacks go through. *)
Definition entry_ok (b : HindsightExperienceReplayBuffer)
    (goal : list A) (h0 : gmap loc (list A)) (e : Entry) : Prop :=
  ∃ t, relabelled b goal h0 (en_state e) = Some t ∧
       is_Some (relabelled b goal h0 (en_next_state e)) ∧
       (∃ rw, reward_fn b t (en_action e) = inr rw) ∧
       match done_fn b with
       | None => True
       | Some f => ∃ d, f t (en_action e) = inr d
       end.

(** The world after the first two statements of [push]: the original
    is in the store and the entry is on the trajectory. *)
Definition recorded (state : loc) (action : Action) (reward : Reward)
    (next_state : loc) (caa naa asp : ActionSpace) (done : bool)
    (cost : option Reward) (w : world) : world :=
  {| heap := heap w;
     self := {| capacity := capacity (self w);
                goal_dim := goal_dim (self w);
                reward_fn := reward_fn (self w);
                done_fn := done_fn (self w);
                trajectory := trajectory (self w) ++
                  [mkEntry state action next_state caa naa asp done cost];
                store := store (self w) ++
                  [mkTransition (heap w !!! state) action reward
                     (heap w !!! next_state) caa naa asp done cost] |} |}.

(** *** The caller's side *)

(** One call of [push], as the environment loop makes it. *)
Record PushCall := mkCall {
  pc_state : loc;
  pc_action : Action;
  pc_reward : Reward;
  pc_next_state : loc;
  pc_curr_available_actions : ActionSpace;
  pc_next_available_actions : ActionSpace;
  pc_action_space : ActionSpace;
  pc_done : bool;
  pc_cost : option Reward
}.

Definition push_call (c : PushCall) : M unit :=
  push (pc_state c) (pc_action c) (pc_reward c) (pc_next_state c)
    (pc_curr_available_actions c) (pc_next_available_actions c)
    (pc_action_space c) (pc_done c) (pc_cost c).

(** An episode pushed transition by transition; an exception ends it. *)
Fixpoint push_all (cs : list PushCall) : M unit :=
  match cs with
  | [] => mret tt
  | c :: cs => push_call c;; push_all cs
  end.

(** The trajectory entry and the store record that a call gives rise to. *)
Definition entry_of (c : PushCall) : Entry :=
  mkEntry (pc_state c) (pc_action c) (pc_next_state c)
    (pc_curr_available_actions c) (pc_next_available_actions c)
    (pc_action_space c) (pc_done c) (pc_cost c).

Definition original_of (h : gmap loc (list A)) (c : PushCall) : Transition :=
  mkTransition (h !!! pc_state c) (pc_action c) (pc_reward c)
    (h !!! pc_next_state c)
    (pc_curr_available_actions c) (pc_next_available_actions c)
    (pc_action_space c) (pc_done c) (pc_cost c).

(** [t] is a relabelled copy of the original record [o]: the action, the
    action spaces and the cost are those of [o]; the two states have the
    length and the leading part of those of [o]. *)
Definition mirrors (b : HindsightExperienceReplayBuffer)
    (o t : Transition) : Prop :=
  tr_action t = tr_action o ∧
  tr_curr_available_actions t = tr_curr_available_actions o ∧
  tr_next_available_actions t = tr_next_available_actions o ∧
  tr_action_space t = tr_action_space o ∧
  tr_cost t = tr_cost o ∧
  (done_fn b = None → tr_done t = tr_done o) ∧
  same_prefix (- goal_dim b) (tr_state o) (tr_state t) ∧
  same_prefix (- goal_dim b) (tr_next_state o) (tr_next_state t).

End her.

(** *** Small concrete buffers *)

(** Reward 0 when the state has reached its goal, -1 otherwise. *)
Definition sparse_reward (s : list Z) (a : nat) : exception + Z :=
  inr (if decide (take (length s / 2) s = drop (length s / 2) s)
       then 0 else -1).

(** A reward function that always raises. *)
Definition raising_reward (s : list Z) (a : nat) : exception + Z :=
  inl (OtherError 7).

(** A fresh buffer with the given [goal_dim] and two tensors on the heap,
    at 1 and at 2. *)
Definition small_world (goal_dim : Z)
    (reward_fn : list Z → nat → exception + Z) (t1 t2 : list Z)
  : @world Z nat unit Z :=
  mkWorld (<[1%positive := t1]> (<[2%positive := t2]> ∅))
    (init 10 goal_dim reward_fn None).

(** One terminal push of the transition from tensor 1 to tensor 2. *)
Definition terminal_push : @M Z nat unit Z unit :=
  push 1%positive 0%nat 0 2%positive tt tt tt true None.

(** goal_dim 2 and states of four elements: two of state, two of goal. *)
Definition world_2_4 : @world Z nat unit Z :=
  small_world 2 sparse_reward [10; 11; 7; 8] [20; 21; 7; 8].

(** goal_dim 2 and states of three, of five and of one element. *)
Definition world_2_3 : @world Z nat unit Z :=
  small_world 2 sparse_reward [1; 2; 3] [4; 5; 6].
Definition world_2_5 : @world Z nat unit Z :=
  small_world 2 sparse_reward [1; 2; 3; 4; 5] [4; 5; 6; 7; 8].
Definition world_2_1 : @world Z nat unit Z :=
  small_world 2 sparse_reward [1] [4].

(** goal_dim 2 and two empty states. *)
Definition world_2_0 : @world Z nat unit Z :=
  small_world 2 sparse_reward [] [].

(** goal_dim 3, a state of two elements and a next_state of four. *)
Definition world_3_short : @world Z nat unit Z :=
  small_world 3 sparse_reward [7; 8] [1; 2; 3; 4].

(** As [world_2_4], with a reward function that raises. *)
Definition world_raising : @world Z nat unit Z :=
  small_world 2 raising_reward [10; 11; 7; 8] [20; 21; 7; 8].

(** goal_dim 2; two tensors of five elements and two of three. *)
Definition world_stale : @world Z nat unit Z :=
  mkWorld
    (<[1%positive := [1; 2; 3; 4; 5]]>
       (<[2%positive := [4; 5; 6; 7; 8]]>
          (<[3%positive := [1; 2; 3]]> (<[4%positive := [4; 5; 6]]> ∅))))
    (init 10 2 sparse_reward None).

(** A terminal step from tensor 3 to tensor 4. *)
Definition step_3_4 : @PushCall nat unit Z :=
  mkCall 3%positive 0%nat 0 4%positive tt tt tt true None.

(** As [world_2_4], with a [done_fn] that raises. *)
Definition world_done_raising : @world Z nat unit Z :=
  mkWorld (<[1%positive := [10; 11; 7; 8]]> (<[2%positive := [20; 21; 7; 8]]> ∅))
    (init 10 2 sparse_reward (Some (λ _ _, inl (OtherError 9)))).

(** An episode of two steps, 1 to 2 and 2 back to 1. *)
Definition step_1_2 : @PushCall nat unit Z :=
  mkCall 1%positive 0%nat (-1) 2%positive tt tt tt false None.
Definition step_2_1 : @PushCall nat unit Z :=
  mkCall 2%positive 1%nat (-1) 1%positive tt tt tt true None.

End HER.

(** ** Proximal policy optimisation *)

Module PPO.

(** The arithmetic of tensor elements.  Only the operations are fixed, no
    law is assumed of them: whatever is proved for every instance holds
    for floating-point numbers as well as for exact ones. *)
Class Arith (F : Type) := {
  zero : F;
  one : F;
  add : F → F → F;
  sub : F → F → F;
  mul : F → F → F;
  div : F → F → F;
  neg : F → F;
  fmin : F → F → F;
  fmax : F → F → F
}.

(** Exact arithmetic on the rationals.  Rounding is not modelled, and
    neither is division by zero: [Qcdiv x 0] is [0] where [torch.div]
    gives [inf] or [nan], so that what is proved of a quotient is proved
    for divisors that are not zero. *)
Definition Qc_min (a b : Qc) : Qc := if Qle_bool a b then a else b.
Definition Qc_max (a b : Qc) : Qc := if Qle_bool a b then b else a.

Global Instance Qc_arith : Arith Qc := {|
  zero := 0%Qc; one := 1%Qc;
  add := Qcplus; sub := Qcminus; mul := Qcmult; div := Qcdiv; neg := Qcopp;
  fmin := Qc_min; fmax := Qc_max
|}.

(** [type(replay_buffer)]. *)
Inductive buffer_type :=
  | OnPolicyReplayBuffer
  | FIFOOffPolicyReplayBuffer
  | HindsightExperienceReplayBuffer
  | OtherReplayBuffer (name : nat).

Global Instance buffer_type_eq_dec : EqDecision buffer_type.
Proof. solve_decision. Defined.

Section ppo.
Context {F : Type} `{Arith F}.
Context {State Action StateRep ActionRep Avail Mask : Type}.

(** A boolean tensor as a factor: [True] is 1 and [False] is 0. *)
Definition of_bool (b : bool) : F := if b then one else zero.

(** A value together with whether it is attached to the gradient graph. *)
Record tagged (X : Type) := mkTagged { data : X; requires_grad : bool }.
Global Arguments mkTagged {X} _ _.
Global Arguments data {X} _.
Global Arguments requires_grad {X} _.

(** [t.detach()]: the same values, cut off from the graph. *)
Definition detach {X} (t : tagged X) : tagged X := mkTagged (data t) false.

(** An [OnPolicyTransition]; the last three fields are [None] until the
    buffer is preprocessed. *)
Record OnPolicyTransition := mkOnPolicyTransition {
  t_state : State;
  t_action : Action;
  t_reward : F;
  t_next_state : State;
  t_curr_available_actions : Avail;
  t_curr_unavailable_actions_mask : Mask;
  t_done : bool;
  t_gae : option F;
  t_lam_return : option F;
  t_action_probs : option F
}.

Record ReplayBuffer := mkReplayBuffer {
  rb_type : buffer_type;
  memory : list OnPolicyTransition
}.

(** An [OnPolicyTransitionBatch]: one row per sampled transition, states
    and actions as the networks take them. *)
Record OnPolicyTransitionBatch := mkBatch {
  b_state : list StateRep;
  b_action : list ActionRep;
  b_curr_available_actions : Avail;
  b_curr_unavailable_actions_mask : Mask;
  b_gae : option (tagged (list F));
  b_lam_return : option (tagged (list F));
  b_action_probs : option (tagged (list F))
}.

(** [TransitionBatch] and its subclass. *)
Inductive TransitionBatch :=
  | OtherTransitionBatch
  | OnPolicy (batch : OnPolicyTransitionBatch).

(** The learner: the attributes set by [__init__], and the networks and
    modules of [ActorCriticBase], which are not among the sources and are
    taken as they come: each acts row by row on a batch. *)
Record ProximalPolicyOptimization := mkPPO {
  discount_factor : F;
  epsilon : F;
  trace_decay_param : F;
  entropy_bonus_scaling : F;
  critic : StateRep → F;
  actor : StateRep → ActionRep → option Avail → option Mask → F;
  history_summarization_module : State → StateRep;
  action_representation_module : Action → ActionRep
}.

(** Modelled from the spec: [torch.distributions.Categorical(p).entropy()]
    is torch's; it takes the one-dimensional tensor of probabilities to a
    single number. *)
Context (categorical_entropy : list F → F).

Section learner.
Context (self : ProximalPolicyOptimization).

(** Modelled from the spec: [self._actor.get_action_prob], the "Policy/actor:
    callable returning P(action | state, available_actions)" that is
    "differentiable w.r.t. policy parameters": one probability per row,
    attached to the graph. *)
Definition get_action_prob (state_batch : list StateRep)
    (action_batch : list ActionRep) (available_actions : option Avail)
    (unavailable_actions_mask : option Mask) : tagged (list F) :=
  mkTagged
    (zip_with (λ s a, actor self s a available_actions unavailable_actions_mask)
       state_batch action_batch)
    true.

(** *** Elementwise operations *)

(** A binary operation on two one-dimensional tensors: equal sizes, or
    one of them a single element that is repeated. *)
Definition elementwise (op : F → F → F) (a b : tagged (list F))
  : exception + tagged (list F) :=
  let g := requires_grad a || requires_grad b in
  if decide (length (data a) = length (data b))
  then inr (mkTagged (zip_with op (data a) (data b)) g)
  else match data a, data b with
       | [x], ys => inr (mkTagged (op x <$> ys) g)
       | xs, [y] => inr (mkTagged ((λ x, op x y) <$> xs) g)
       | _, _ => inl RuntimeError
       end.

(** [torch.clamp(t, min=lo, max=hi)] is [min(max(t, lo), hi)]. *)
Definition clamp (t : tagged (list F)) (lo hi : F) : tagged (list F) :=
  mkTagged ((λ x, fmin (fmax x lo) hi) <$> data t) (requires_grad t).

(** [torch.sum(t)] *)
Definition tsum (t : tagged (list F)) : tagged F :=
  mkTagged (foldl add zero (data t)) (requires_grad t).

(** *** [_actor_loss] *)

(** The argument of [Categorical]: [action_probs.detach()]. *)
Definition entropy_input (action_probs : tagged (list F)) : tagged (list F) :=
  detach action_probs.

(** [self._entropy_bonus_scaling * entropy]; the entropy of a
    one-dimensional tensor is a single number, which [torch.sum] returns
    as it is. *)
Definition entropy_bonus (action_probs : tagged (list F)) : tagged F :=
  let p := entropy_input action_probs in
  let entropy := mkTagged (categorical_entropy (data p)) (requires_grad p) in
  mkTagged (mul (entropy_bonus_scaling self) (data entropy))
    (requires_grad entropy).

Definition _actor_loss (batch : TransitionBatch) : exception + tagged F :=
  match batch with
  | OtherTransitionBatch => inl AssertionError
  | OnPolicy batch =>
    let action_probs :=
      get_action_prob (b_state batch) (b_action batch)
        (Some (b_curr_available_actions batch))
        (Some (b_curr_unavailable_actions_mask batch)) in
    (* actor loss *)
    match b_action_probs batch with
    | None => inl AssertionError
    | Some action_probs_old =>
      r_thelta ← elementwise div action_probs action_probs_old;
      let clip :=
        clamp r_thelta (sub one (epsilon self)) (add one (epsilon self)) in
      match b_gae batch with
      | None => inl TypeError
      | Some gae =>
        unclipped ← elementwise mul r_thelta gae;
        clipped ← elementwise mul clip gae;
        m ← elementwise fmin unclipped clipped;
        let loss := tsum (mkTagged (neg <$> data m) (requires_grad m)) in
        (* entropy *)
        let bonus := entropy_bonus action_probs in
        inr (mkTagged (sub (data loss) (data bonus))
               (requires_grad loss || requires_grad bonus))
      end
    end
  end.

(** *** [preprocess_replay_buffer] *)

(** The body of [for i, transition in enumerate(reversed(memory))], from
    index [i] on; the transitions come back annotated, in the order in
    which they are visited.  [transition.done] is a boolean tensor:
    [~transition.done] is its negation, and as a factor it is 1 or 0. *)
Fixpoint annotate (i : nat) (transitions : list OnPolicyTransition)
    (state_values action_probs : list F) (next_value gae : F)
  : exception + list OnPolicyTransition :=
  match transitions with
  | [] => inr []
  | transition :: rest =>
    match state_values !! i with
    | None => inl IndexError
    | Some v =>
      let td_error :=
        sub (add (t_reward transition)
               (mul (mul (discount_factor self) next_value)
                  (of_bool (negb (t_done transition)))))
            v in
      let gae :=
        add td_error
          (mul (mul (mul (discount_factor self) (trace_decay_param self))
                  (of_bool (negb (t_done transition))))
             gae) in
      match action_probs !! i with
      | None => inl IndexError
      | Some p =>
        rest' ← annotate (S i) rest state_values action_probs v gae;
        inr (mkOnPolicyTransition (t_state transition) (t_action transition)
               (t_reward transition) (t_next_state transition)
               (t_curr_available_actions transition)
               (t_curr_unavailable_actions_mask transition)
               (t_done transition)
               (Some gae)
               (* truncated lambda return of the state *)
               (Some (add gae v))
               (* action probabilities from the current policy *)
               (Some p)
             :: rest')
      end
    end
  end.

(** The memory after the call, or the exception.  The elements of
    [memory] are [OnPolicyTransition]s by their type, which is what the
    assertion inside the loop asks for. *)
Definition preprocess_replay_buffer (replay_buffer : ReplayBuffer)
  : exception + list OnPolicyTransition :=
  if negb (bool_decide (rb_type replay_buffer = OnPolicyReplayBuffer))
  then inl AssertionError
  else if negb (bool_decide (0 < length (memory replay_buffer))%nat)
  then inl AssertionError
  else
    let reversed := reverse (memory replay_buffer) in
    let state_list := t_state <$> reversed in
    let action_list := t_action <$> reversed in
    let history_summary_batch :=
      history_summarization_module self <$> state_list in
    let action_representation_batch :=
      action_representation_module self <$> action_list in
    let state_values := critic self <$> history_summary_batch in
    let action_probs :=
      data (detach (get_action_prob history_summary_batch
                      action_representation_batch None None)) in
    match last (memory replay_buffer) with
    | None => inl IndexError
    | Some most_recent =>
      let next_value :=
        critic self
          (history_summarization_module self (t_next_state most_recent)) in
      annotated ← annotate 0 reversed state_values action_probs next_value zero;
      inr (reverse annotated)
    end.

(** *** The walk as the specification words it *)

(** [V(s_t)] and the probability of the taken action under the current
    policy. *)
Definition V (s : State) : F := critic self (history_summarization_module self s).
Definition pi (s : State) (a : Action) : F :=
  actor self (history_summarization_module self s)
    (action_representation_module self a) None None.

(** The factor [1 - done]. *)
Definition not_done (t : OnPolicyTransition) : F := of_bool (negb (t_done t)).

(** Most recent transition first: the temporal-difference error, the
    advantage, the lambda-return and the probability of each transition,
    then on to the earlier ones with [next_value = V(s_t)]. *)
Fixpoint gae_walk (transitions : list OnPolicyTransition)
    (next_value gae_prev : F) : list OnPolicyTransition :=
  match transitions with
  | [] => []
  | t :: earlier =>
    let td_error :=
      sub (add (t_reward t)
             (mul (mul (discount_factor self) next_value) (not_done t)))
          (V (t_state t)) in
    let gae :=
      add td_error
        (mul (mul (mul (discount_factor self) (trace_decay_param self))
                (not_done t))
           gae_prev) in
    mkOnPolicyTransition (t_state t) (t_action t) (t_reward t)
      (t_next_state t) (t_curr_available_actions t)
      (t_curr_unavailable_actions_mask t) (t_done t)
      (Some gae) (Some (add gae (V (t_state t))))
      (Some (pi (t_state t) (t_action t)))
    :: gae_walk earlier (V (t_state t)) gae
  end.

(** *** [learn] *)

(** Modelled from the spec: [learn] of the base class [ActorCriticBase] is
    not among the sources; it is taken as it comes, [super_learn].  It is
    called on the buffer whose transitions [preprocess_replay_buffer] has
    annotated in place, and its result is the result. *)
Definition learn {Report : Type}
    (super_learn : ReplayBuffer → exception + Report)
    (replay_buffer : ReplayBuffer) : exception + Report :=
  annotated ← preprocess_replay_buffer replay_buffer;
  (* sample from replay buffer and learn *)
  super_learn (mkReplayBuffer (rb_type replay_buffer) annotated).

(** *** What the annotations are measured against *)

(** A transition without its annotations. *)
Definition erase (t : OnPolicyTransition) : OnPolicyTransition :=
  mkOnPolicyTransition (t_state t) (t_action t) (t_reward t) (t_next_state t)
    (t_curr_available_actions t) (t_curr_unavailable_actions_mask t)
    (t_done t) None None None.

(** The lambda-return the docstring refers to, most recent transition
    first: [G_t = r_t + gamma (1 - done_t)
                  ((1 - lambda) V(s_t+1) + lambda G_t+1)]. *)
Fixpoint lambda_returns (transitions : list OnPolicyTransition)
    (next_value G_next : F) : list F :=
  match transitions with
  | [] => []
  | t :: earlier =>
    let G :=
      add (t_reward t)
        (mul (mul (discount_factor self) (not_done t))
           (add (mul (sub one (trace_decay_param self)) next_value)
              (mul (trace_decay_param self) G_next))) in
    G :: lambda_returns earlier (V (t_state t)) G
  end.

(** Two one-dimensional tensors that an elementwise operation accepts. *)
Definition broadcastable (a b : list F) : Prop :=
  length a = length b ∨ length a = 1%nat ∨ length b = 1%nat.

End learner.
End ppo.

(** *** The clipped surrogate as the specification words it *)

(** [clip(r, lo, hi)]. *)
Definition clip (r lo hi : Qc) : Qc := Qc_min (Qc_max r lo) hi.

(** [min(r * gae, clip(r, 1 - eps, 1 + eps) * gae)]. *)
Definition surrogate (eps r gae : Qc) : Qc :=
  Qc_min (r * gae) (clip r (1 - eps) (1 + eps) * gae).

(** The sum over the batch. *)
Fixpoint total (l : list Qc) : Qc :=
  match l with
  | [] => 0
  | x :: l => x + total l
  end.

(** *** A small learner and a batch of one row *)

(** Discount 1, clip range 1/5, trace decay 1, no entropy bonus; a critic
    that values state [s] at [s] and a policy that gives every action
    probability 1/2. *)
Definition small_learner : @ProximalPolicyOptimization Qc nat nat nat nat unit unit :=
  mkPPO 1%Qc (Q2Qc (1 # 5)) 1%Qc 0%Qc (λ s, Q2Qc (Z.of_nat s # 1))
    (λ _ _ _ _, Q2Qc (1 # 2)) (λ s, s) (λ a, a).

(** One row whose stored probability is 1/4, so that the ratio is 2, and
    whose advantage is 1. *)
Definition small_batch : @OnPolicyTransitionBatch Qc nat nat unit unit :=
  mkBatch [0%nat] [0%nat] tt tt
    (Some (mkTagged [1%Qc] false)) (Some (mkTagged [1%Qc] false))
    (Some (mkTagged [Q2Qc (1 # 4)] false)).


(** A batch without stored probabilities. *)
Definition raw_batch : @OnPolicyTransitionBatch Qc nat nat unit unit :=
  mkBatch [0%nat] [0%nat] tt tt None None None.

(** The entropy is not a rational function: any number will do here. *)
Definition no_entropy (p : list Qc) : Qc := 0%Qc.

(** A buffer of two transitions with rewards 1 and 2, the second terminal. *)
Definition small_memory : list (@OnPolicyTransition Qc nat nat unit unit) :=
  [mkOnPolicyTransition 0%nat 0%nat 1%Qc 1%nat tt tt false None None None;
   mkOnPolicyTransition 1%nat 0%nat (Q2Qc 2) 2%nat tt tt true None None None].


(** A transition of the episode that follows [small_memory]. *)
Definition later_transition : @OnPolicyTransition Qc nat nat unit unit :=
  mkOnPolicyTransition 5%nat 1%nat (Q2Qc 7) 6%nat tt tt false None None None.

(** A base class that reports how many transitions it was given. *)
Definition counting_learn
    (rb : @ReplayBuffer Qc nat nat unit unit) : exception + nat :=
  inr (length (memory rb)).

End PPO.

(** * Properties *)

(** ** Tensors *)

Module TorchFacts.
Import Torch.
Section tensor.
Context {A : Type}.
Implicit Types (t src : list A) (i : Z).

Lemma slice_index_le n i : (slice_index n i ≤ n)%nat.
Proof. unfold slice_index. destruct (Z.ltb_spec i 0); lia. Qed.

Lemma slice_index_neg n g :
  0 < g → slice_index n (- g) = (n - Z.to_nat g)%nat.
Proof. intros Hg. unfold slice_index. destruct (Z.ltb_spec (- g) 0); lia. Qed.

Lemma expand_length src n v : expand src n = Some v → length v = n.
Proof.
  unfold expand. case_decide as Hl.
  - by intros [= <-].
  - destruct src as [|x [|??]]; intros [= <-]. by rewrite length_replicate.
Qed.

Lemma expand_cases src n v :
  expand src n = Some v →
  v = src ∨ ∃ x, src = [x] ∧ v = replicate n x.
Proof.
  unfold expand. case_decide as Hl.
  - intros [= <-]. by left.
  - destruct src as [|x [|??]]; intros [= <-]. right. by exists x.
Qed.

Lemma expand_None src n :
  length src ≠ n → length src ≠ 1%nat → expand src n = None.
Proof.
  intros H1 H2. unfold expand. case_decide; [done|].
  by destruct src as [|x [|??]].
Qed.

Lemma expand_is_Some src n :
  length src = n ∨ length src = 1%nat → is_Some (expand src n).
Proof.
  intros H. unfold expand. case_decide; [by eexists|].
  destruct H as [?|H]; [done|].
  destruct src as [|x [|??]]; simplify_eq/=. by eexists.
Qed.

Lemma setslice_from_Some t i src t' :
  setslice_from t i src = Some t' →
  ∃ v, expand src (length t - slice_index (length t) i) = Some v ∧
       t' = take (slice_index (length t) i) t ++ v.
Proof.
  unfold setslice_from. cbn.
  destruct (expand src _) as [v|] eqn:E; cbn; [|done].
  intros [= <-]. by exists v.
Qed.

Lemma setslice_from_length t i src t' :
  setslice_from t i src = Some t' → length t' = length t.
Proof.
  intros (v & Hv & ->)%setslice_from_Some.
  apply expand_length in Hv. pose proof (slice_index_le (length t) i).
  rewrite length_app, length_take, Hv. lia.
Qed.

Lemma setslice_from_same_prefix t i src t' :
  setslice_from t i src = Some t' → same_prefix i t t'.
Proof.
  intros H. split; [symmetry; by eapply setslice_from_length|].
  apply setslice_from_Some in H as (v & Hv & ->).
  pose proof (slice_index_le (length t) i).
  rewrite take_app_le by (rewrite length_take; lia).
  rewrite take_take. f_equal. lia.
Qed.

Lemma same_prefix_setslice_from i t t' src :
  same_prefix i t t' → setslice_from t i src = setslice_from t' i src.
Proof. intros [Hl Ht]. unfold setslice_from. by rewrite <-Hl, Ht. Qed.

Global Instance same_prefix_equiv i : Equivalence (@same_prefix A i).
Proof.
  split.
  - by intros t.
  - intros t t' [Hl Ht]. split; [done|]. by rewrite <-Hl.
  - intros t1 t2 t3 [Hl1 Ht1] [Hl2 Ht2]. split; [congruence|].
    rewrite Ht1, Hl1. done.
Qed.

(** What is read back from a tensor after [t[i:] = src]. *)
Lemma setslice_from_slice_to t i src t' :
  setslice_from t i src = Some t' → slice_to t' i = slice_to t i.
Proof.
  intros [Hl Ht]%setslice_from_same_prefix. unfold slice_to.
  by rewrite <-Hl, Ht.
Qed.

Lemma setslice_from_slice_from t i src t' :
  setslice_from t i src = Some t' →
  slice_from t' i = src ∨
  ∃ x, src = [x] ∧ slice_from t' i = replicate (length (slice_from t i)) x.
Proof.
  intros H. pose proof (setslice_from_length _ _ _ _ H) as Hl.
  apply setslice_from_Some in H as (v & Hv & ->).
  pose proof (slice_index_le (length t) i).
  unfold slice_from. rewrite Hl.
  rewrite drop_app_length' by (rewrite length_take; lia).
  rewrite length_drop.
  destruct (expand_cases _ _ _ Hv) as [->|(x & -> & ->)]; [by left|].
  right. by exists x.
Qed.


End tensor.
End TorchFacts.

(** ** The hindsight experience replay buffer *)

Module HERFacts.
Import Torch TorchFacts HER.

Section her.
Context {A Action ActionSpace Reward : Type}.
Abbreviation world := (@world A Action ActionSpace Reward).
Abbreviation Entry := (@Entry Action ActionSpace Reward).
Abbreviation HindsightExperienceReplayBuffer :=
  (@HindsightExperienceReplayBuffer A Action ActionSpace Reward).
Implicit Types (w : world) (e : Entry) (b : HindsightExperienceReplayBuffer).
Implicit Types (h : gmap loc (list A)) (l : loc) (v : View).

Global Instance same_config_equiv :
  Equivalence (@same_config A Action ActionSpace Reward).
Proof.
  split.
  - by intros b.
  - intros b b' (?&?&?&?). by repeat split.
  - intros b1 b2 b3 (?&?&?&?) (?&?&?&?). repeat split; congruence.
Qed.

Lemma setslice_run l i v w :
  setslice l i v w =
    match setslice_from (heap w !!! l) i (take (stop v) (heap w !!! base v)) with
    | None => (inl RuntimeError, w)
    | Some t' => (inr tt, {| heap := <[l := t']> (heap w); self := self w |})
    end.
Proof.
  unfold setslice, read_view, deref, mbind, M_bind, bind, mret, M_ret, ret.
  by destruct (setslice_from _ _ _).
Qed.

Lemma super_push_run s a r ns caa naa asp d c w :
  super_push s a r ns caa naa asp d c w =
    (inr tt,
     {| heap := heap w;
        self := {| capacity := capacity (self w);
                   goal_dim := goal_dim (self w);
                   reward_fn := reward_fn (self w);
                   done_fn := done_fn (self w);
                   trajectory := trajectory (self w);
                   store := store (self w) ++
                     [mkTransition (heap w !!! s) a r (heap w !!! ns)
                        caa naa asp d c] |} |}).
Proof. reflexivity. Qed.

Lemma relabel_cons v e rest w :
  relabel v (e :: rest) w =
    match relabel_step v e w with
    | (inl x, w') => (inl x, w')
    | (inr _, w') => relabel v rest w'
    end.
Proof.
  unfold relabel_step. cbn [relabel].
  unfold mbind, M_bind, bind, get_self at 1.
  rewrite !setslice_run.
  destruct (setslice_from (heap w !!! en_state e) _ _) as [t1|]; [|done].
  rewrite !setslice_run. cbn [heap self].
  destruct (setslice_from _ _ _) as [t2|]; [|done].
  unfold deref at 1. cbn [heap self].
  destruct (reward_fn _ _ _) as [x|r]; [done|]. cbn.
  destruct (done_fn (self w)) as [f|]; cbn; [|done].
  by destruct (f _ _) as [x|d].
Qed.

Section pass.
Context (b : HindsightExperienceReplayBuffer) (h0 : gmap loc (list A)).
Context (v : View).
Context (Hv : stop v = slice_index (length (h0 !!! base v)) (- goal_dim b)).

Abbreviation goal := (take (stop v) (h0 !!! base v)).

Lemma read_goal h :
  prefixes_kept b h0 h → take (stop v) (h !!! base v) = goal.
Proof using Hv.
  intros H. destruct (H (base v)) as [_ Ht].
  by rewrite Hv, Ht.
Qed.

Lemma relabelled_kept h l :
  prefixes_kept b h0 h →
  setslice_from (h !!! l) (- goal_dim b) goal = relabelled b goal h0 l.
Proof.
  intros H. unfold relabelled. symmetry.
  apply same_prefix_setslice_from, H.
Qed.

Lemma prefixes_kept_insert h l t :
  prefixes_kept b h0 h → relabelled b goal h0 l = Some t →
  prefixes_kept b h0 (<[l := t]> h).
Proof.
  intros H Ht l'. destruct (decide (l = l')) as [<-|Hne].
  - rewrite lookup_total_insert_eq.
    by apply setslice_from_same_prefix in Ht.
  - by rewrite lookup_total_insert_ne.
Qed.

(** The outcome of one turn of the loop. *)
Lemma relabel_step_spec e w r w' :
  same_config b (self w) → prefixes_kept b h0 (heap w) →
  relabel_step v e w = (r, w') →
  same_config b (self w') ∧ prefixes_kept b h0 (heap w') ∧
  trajectory (self w') = trajectory (self w) ∧
  (∀ l, heap w' !!! l = heap w !!! l ∨
        relabelled b goal h0 l = Some (heap w' !!! l)) ∧
  (∀ l, l ≠ en_state e → l ≠ en_next_state e →
        heap w' !! l = heap w !! l) ∧
  match r with
  | inr _ =>
      ∃ t, store (self w') = store (self w) ++ [t] ∧
           relabelled_transition b goal h0 e t ∧
           heap w' !!! en_state e = tr_state t ∧
           heap w' !!! en_next_state e = tr_next_state t
  | inl _ => store (self w') = store (self w)
  end.
Proof using Hv.
  intros Hc Hk. pose proof Hc as (Hc1 & Hc2 & Hc3 & Hc4).
  unfold relabel_step. rewrite Hc2, Hc3, Hc4, setslice_run.
  rewrite (read_goal _ Hk), (relabelled_kept _ _ Hk).
  destruct (relabelled b goal h0 (en_state e)) as [t1|] eqn:E1.
  2:{ intros [= <- <-]. split_and!; auto. }
  rewrite setslice_run. cbn [heap self].
  pose proof (prefixes_kept_insert _ _ _ Hk E1) as Hk1.
  rewrite (read_goal _ Hk1), (relabelled_kept _ _ Hk1).
  assert (∀ l, <[en_state e := t1]> (heap w) !!! l = heap w !!! l ∨
            relabelled b goal h0 l = Some (<[en_state e := t1]> (heap w) !!! l))
    as Hw1.
  { intros l. destruct (decide (en_state e = l)) as [<-|Hne].
    - right. by rewrite lookup_total_insert_eq.
    - left. by rewrite lookup_total_insert_ne. }
  destruct (relabelled b goal h0 (en_next_state e)) as [t2|] eqn:E2.
  2:{ intros [= <- <-]. cbn [heap self]. split_and!; auto.
      intros l Hl _. by rewrite lookup_insert_ne. }
  cbn [heap self].
  pose proof (prefixes_kept_insert _ _ _ Hk1 E2) as Hk2.
  set (h2 := <[en_next_state e := t2]> (<[en_state e := t1]> (heap w))) in *.
  assert (h2 !!! en_next_state e = t2) as Hns
    by (unfold h2; by rewrite lookup_total_insert_eq).
  assert (h2 !!! en_state e = t1) as Hs.
  { unfold h2. destruct (decide (en_next_state e = en_state e)) as [Heq|Hne].
    - rewrite Heq, lookup_total_insert_eq. rewrite Heq in E2. congruence.
    - rewrite lookup_total_insert_ne, lookup_total_insert_eq; done. }
  assert (∀ l, h2 !!! l = heap w !!! l ∨
            relabelled b goal h0 l = Some (h2 !!! l)) as Hw2.
  { intros l. destruct (decide (en_next_state e = l)) as [<-|Hne].
    - right. by rewrite Hns.
    - unfold h2. rewrite lookup_total_insert_ne by done. apply Hw1. }
  assert (∀ l, l ≠ en_state e → l ≠ en_next_state e →
            h2 !! l = heap w !! l) as Hf2.
  { intros l ??. unfold h2. by rewrite !lookup_insert_ne. }
  rewrite Hs.
  destruct (reward_fn b t1 (en_action e)) as [x|rw] eqn:Er.
  { intros [= <- <-]. cbn [heap self]. split_and!; auto. }
  destruct (match done_fn b with
            | None => inr (en_done e)
            | Some f => f t1 (en_action e)
            end) as [x|d] eqn:Ed.
  { intros [= <- <-]. cbn [heap self]. split_and!; auto. }
  rewrite super_push_run. intros [= <- <-]. cbn [heap self store trajectory].
  split_and!; auto.
  eexists. split; [done|]. cbn. rewrite Hs, Hns.
  unfold relabelled_transition. cbn. split_and!; try done.
  destruct (done_fn b) as [f|]; [done|]. by injection Ed.
Qed.

(** The outcome of the whole loop: the records pushed are those of a
    prefix of the trajectory, in its order; all of it when the loop
    returns. *)
Lemma relabel_spec traj : ∀ w r w',
  same_config b (self w) → prefixes_kept b h0 (heap w) →
  relabel v traj w = (r, w') →
  same_config b (self w') ∧ prefixes_kept b h0 (heap w') ∧
  trajectory (self w') = trajectory (self w) ∧
  (∀ l, heap w' !!! l = heap w !!! l ∨
        relabelled b goal h0 l = Some (heap w' !!! l)) ∧
  (∀ l, (∀ e, e ∈ traj → l ≠ en_state e ∧ l ≠ en_next_state e) →
        heap w' !! l = heap w !! l) ∧
  ∃ rel, store (self w') = store (self w) ++ rel ∧
    Forall2 (relabelled_transition b goal h0) (take (length rel) traj) rel ∧
    match r with
    | inr _ =>
        length rel = length traj ∧
        ∀ e, e ∈ traj →
          relabelled b goal h0 (en_state e) = Some (heap w' !!! en_state e) ∧
          relabelled b goal h0 (en_next_state e)
            = Some (heap w' !!! en_next_state e)
    | inl _ => (length rel < length traj)%nat
    end.
Proof using Hv.
  induction traj as [|e rest IH]; intros w r w' Hc Hk.
  - intros [= <- <-]. split_and!; auto. exists []. rewrite app_nil_r.
    split_and!; auto. intros e He. by apply elem_of_nil in He.
  - rewrite relabel_cons.
    destruct (relabel_step v e w) as [[x|[]] w1] eqn:Es;
      apply relabel_step_spec in Es as (Hc1 & Hk1 & Ht1 & Hw1 & Hf1 & Hs1);
      try done.
    + intros [= <- <-]. split_and!; auto.
      * intros l Hl. apply Hf1; apply Hl; left.
      * exists []. rewrite app_nil_r. split_and!; auto. cbn. lia.
    + destruct Hs1 as (t & Hst & Hrt & Hts & Htn).
      intros Hr. apply IH in Hr as (Hc2 & Hk2 & Ht2 & Hw2 & Hf2 & rel & Hs2 & HF & Hres);
        try done.
      assert (∀ l, relabelled b goal h0 l = Some (heap w1 !!! l) →
                   relabelled b goal h0 l = Some (heap w' !!! l)) as Hstay.
      { intros l Hl. destruct (Hw2 l) as [->|?]; done. }
      split_and!; auto; try congruence.
      * intros l. destruct (Hw2 l) as [->|?]; auto.
      * intros l Hl. rewrite Hf2, Hf1; try done.
        -- apply Hl; left.
        -- apply Hl; left.
        -- intros e' He'. apply Hl. by right.
      * exists (t :: rel). rewrite Hs2, Hst, <-app_assoc. split; [done|].
        split; [cbn; by constructor|].
        destruct r as [x|[]]; [cbn; lia|].
        destruct Hres as [Hlen Hall]. split; [cbn; lia|].
        intros e' [->|He']%elem_of_cons; [|by apply Hall].
        destruct Hrt as (Hr1 & Hr2 & _).
        split; apply Hstay; congruence.
Qed.

(** The loop fails at once when the first assignment cannot be made. *)
Lemma relabel_first_shape e rest w :
  same_config b (self w) → prefixes_kept b h0 (heap w) →
  relabelled b goal h0 (en_state e) = None →
  relabel v (e :: rest) w = (inl RuntimeError, w).
Proof using Hv.
  intros Hc Hk Hn. pose proof Hc as (Hc1 & Hc2 & Hc3 & Hc4).
  rewrite relabel_cons. unfold relabel_step.
  rewrite Hc2, setslice_run, (read_goal _ Hk), (relabelled_kept _ _ Hk).
  by rewrite Hn.
Qed.

Lemma relabel_step_ok e w :
  same_config b (self w) → prefixes_kept b h0 (heap w) →
  entry_ok b goal h0 e → ∃ w', relabel_step v e w = (inr tt, w').
Proof using Hv.
  intros Hc Hk (t1 & E1 & [t2 E2] & [rw Er] & Hd).
  pose proof Hc as (Hc1 & Hc2 & Hc3 & Hc4).
  unfold relabel_step. rewrite Hc2, Hc3, Hc4, setslice_run.
  rewrite (read_goal _ Hk), (relabelled_kept _ _ Hk), E1.
  rewrite setslice_run. cbn [heap self].
  pose proof (prefixes_kept_insert _ _ _ Hk E1) as Hk1.
  rewrite (read_goal _ Hk1), (relabelled_kept _ _ Hk1), E2. cbn [heap self].
  assert (<[en_next_state e := t2]> (<[en_state e := t1]> (heap w))
            !!! en_state e = t1) as ->.
  { destruct (decide (en_next_state e = en_state e)) as [Heq|Hne].
    - rewrite Heq, lookup_total_insert_eq. rewrite Heq in E2. congruence.
    - rewrite lookup_total_insert_ne, lookup_total_insert_eq; done. }
  rewrite Er. destruct (done_fn b) as [f|].
  - destruct Hd as [d ->]. rewrite super_push_run. by eexists.
  - rewrite super_push_run. by eexists.
Qed.

Lemma relabel_ok traj : ∀ w,
  same_config b (self w) → prefixes_kept b h0 (heap w) →
  Forall (entry_ok b goal h0) traj → ∃ w', relabel v traj w = (inr tt, w').
Proof using Hv.
  induction traj as [|e rest IH]; intros w Hc Hk HF.
  - by eexists.
  - apply Forall_cons in HF as [He HF]. rewrite relabel_cons.
    destruct (relabel_step_ok e w Hc Hk He) as [w1 Hw1]. rewrite Hw1.
    apply relabel_step_spec in Hw1 as (Hc1 & Hk1 & _); try done.
    by apply IH.
Qed.

(** The first entry that fails decides the exception: here a raising
    [reward_fn]. *)
Lemma relabel_reward_raises pre e post t x : ∀ w,
  same_config b (self w) → prefixes_kept b h0 (heap w) →
  Forall (entry_ok b goal h0) pre →
  relabelled b goal h0 (en_state e) = Some t →
  is_Some (relabelled b goal h0 (en_next_state e)) →
  reward_fn b t (en_action e) = inl x →
  fst (relabel v (pre ++ e :: post) w) = inl x.
Proof using Hv.
  induction pre as [|e0 pre IH]; intros w Hc Hk HF E1 [t2 E2] Er.
  - cbn [app]. rewrite relabel_cons.
    pose proof Hc as (Hc1 & Hc2 & Hc3 & Hc4).
    unfold relabel_step. rewrite Hc2, Hc3, Hc4, setslice_run.
    rewrite (read_goal _ Hk), (relabelled_kept _ _ Hk), E1.
    rewrite setslice_run. cbn [heap self].
    pose proof (prefixes_kept_insert _ _ _ Hk E1) as Hk1.
    rewrite (read_goal _ Hk1), (relabelled_kept _ _ Hk1), E2. cbn [heap self].
    assert (<[en_next_state e := t2]> (<[en_state e := t]> (heap w))
              !!! en_state e = t) as ->.
    { destruct (decide (en_next_state e = en_state e)) as [Heq|Hne].
      - rewrite Heq, lookup_total_insert_eq. rewrite Heq in E2. congruence.
      - rewrite lookup_total_insert_ne, lookup_total_insert_eq; done. }
    by rewrite Er.
  - apply Forall_cons in HF as [He HF]. cbn [app]. rewrite relabel_cons.
    destruct (relabel_step_ok e0 w Hc Hk He) as [w1 Hw1]. rewrite Hw1.
    apply relabel_step_spec in Hw1 as (Hc1 & Hk1 & _); try done.
    by apply IH.
Qed.

(** The entries of [pre] all go through: the loop is then where it would
    be had it started after them, with one record pushed for each. *)
Lemma relabel_prefix_ok pre rest : ∀ w,
  same_config b (self w) → prefixes_kept b h0 (heap w) →
  Forall (entry_ok b goal h0) pre →
  ∃ w1, relabel v (pre ++ rest) w = relabel v rest w1 ∧
        same_config b (self w1) ∧ prefixes_kept b h0 (heap w1) ∧
        length (store (self w1)) = (length (store (self w)) + length pre)%nat.
Proof using Hv.
  induction pre as [|e0 pre IH]; intros w Hc Hk HF.
  - exists w. cbn. split_and!; auto.
  - apply Forall_cons in HF as [He HF]. cbn [app]. rewrite relabel_cons.
    destruct (relabel_step_ok e0 w Hc Hk He) as [w0 Hw0]. rewrite Hw0.
    apply relabel_step_spec in Hw0 as (Hc0 & Hk0 & _ & _ & _ & t & Hs & _);
      try done.
    destruct (IH w0 Hc0 Hk0 HF) as (w1 & Hrun & Hc1 & Hk1 & Hlen).
    exists w1. split_and!; auto.
    rewrite Hlen, Hs, length_app. cbn. lia.
Qed.

(** One turn in which [reward_fn] returns and [done_fn] raises. *)
Lemma relabel_step_done_raises e t rw f x w :
  same_config b (self w) → prefixes_kept b h0 (heap w) →
  relabelled b goal h0 (en_state e) = Some t →
  is_Some (relabelled b goal h0 (en_next_state e)) →
  reward_fn b t (en_action e) = inr rw →
  done_fn b = Some f → f t (en_action e) = inl x →
  ∃ w', relabel_step v e w = (inl x, w') ∧
        store (self w') = store (self w).
Proof using Hv.
  intros Hc Hk E1 [t2 E2] Er Hf Ed.
  assert (fst (relabel_step v e w) = inl x) as Hfst.
  { pose proof Hc as (Hc1 & Hc2 & Hc3 & Hc4).
    unfold relabel_step. rewrite Hc2, Hc3, Hc4, setslice_run.
    rewrite (read_goal _ Hk), (relabelled_kept _ _ Hk), E1.
    rewrite setslice_run. cbn [heap self].
    pose proof (prefixes_kept_insert _ _ _ Hk E1) as Hk1.
    rewrite (read_goal _ Hk1), (relabelled_kept _ _ Hk1), E2. cbn [heap self].
    assert (<[en_next_state e := t2]> (<[en_state e := t]> (heap w))
              !!! en_state e = t) as ->.
    { destruct (decide (en_next_state e = en_state e)) as [Heq|Hne].
      - rewrite Heq, lookup_total_insert_eq. rewrite Heq in E2. congruence.
      - rewrite lookup_total_insert_ne, lookup_total_insert_eq; done. }
    by rewrite Er, Hf, Ed. }
  destruct (relabel_step v e w) as [res w'] eqn:Es. cbn in Hfst. subst res.
  exists w'. split; [done|].
  by apply relabel_step_spec in Es as (_ & _ & _ & _ & _ & Hs).
Qed.

End pass.

Lemma push_not_done s a r ns caa naa asp c w :
  push s a r ns caa naa asp false c w
  = (inr tt, recorded s a r ns caa naa asp false c w).
Proof. reflexivity. Qed.

Lemma push_done s a r ns caa naa asp c w :
  push s a r ns caa naa asp true c w =
    let w2 := recorded s a r ns caa naa asp true c w in
    match relabel
            (mkView ns (slice_index (length (heap w !!! ns))
                          (- goal_dim (self w))))
            (trajectory (self w2)) w2 with
    | (inl x, w3) => (inl x, w3)
    | (inr _, w3) => set_trajectory [] w3
    end.
Proof.
  unfold push, assert_is_tensor_like, getslice_to, deref, get_self.
  unfold mbind, M_bind, bind, mret, M_ret, ret.
  rewrite super_push_run. cbn.
  by destruct (relabel _ _ _) as [[x|[]] w3].
Qed.

(** Everything that one terminal push does. *)
Lemma push_done_spec s a r ns caa naa asp c w res w' :
  push s a r ns caa naa asp true c w = (res, w') →
  let b := self w in
  let goal := additional_goal b (heap w) ns in
  let traj := trajectory b ++ [mkEntry s a ns caa naa asp true c] in
  same_config b (self w') ∧ prefixes_kept b (heap w) (heap w') ∧
  (∀ l, heap w' !!! l = heap w !!! l ∨
        relabelled b goal (heap w) l = Some (heap w' !!! l)) ∧
  (∀ l, (∀ e, e ∈ traj → l ≠ en_state e ∧ l ≠ en_next_state e) →
        heap w' !! l = heap w !! l) ∧
  ∃ rel,
    store (self w') = store b ++
      mkTransition (heap w !!! s) a r (heap w !!! ns) caa naa asp true c
      :: rel ∧
    Forall2 (relabelled_transition b goal (heap w))
      (take (length rel) traj) rel ∧
    match res with
    | inr _ =>
        trajectory (self w') = [] ∧ length rel = length traj ∧
        ∀ e, e ∈ traj →
          relabelled b goal (heap w) (en_state e)
            = Some (heap w' !!! en_state e) ∧
          relabelled b goal (heap w) (en_next_state e)
            = Some (heap w' !!! en_next_state e)
    | inl _ => trajectory (self w') = traj ∧ (length rel < length traj)%nat
    end.
Proof.
  rewrite push_done. cbn zeta.
  set (w2 := recorded s a r ns caa naa asp true c w).
  set (v := mkView ns _).
  destruct (relabel v (trajectory (self w2)) w2) as [r3 w3] eqn:E.
  apply (relabel_spec (self w) (heap w) v) in E
    as (Hc & Hk & Ht & Hw & Hf & rel & Hs & HF & Hres);
    [|done|by repeat split|by intros l].
  intros Hpush. cbn zeta.
  assert (take (stop v) (heap w !!! base v)
          = additional_goal (self w) (heap w) ns) as Hg by done.
  rewrite Hg in *. clear Hg.
  destruct r3 as [x|[]]; injection Hpush as <- <-; cbn [heap self].
  - split_and!; auto. exists rel.
    split; [rewrite Hs; cbn; by rewrite <-app_assoc|].
    split_and!; auto.
  - split; [by destruct Hc as (?&?&?&?)|]. split_and!; auto.
    exists rel. cbn.
    split; [rewrite Hs; cbn; by rewrite <-app_assoc|].
    destruct Hres. split_and!; auto.
Qed.

(** *** Episodes that are still running *)

Lemma push_call_not_done (c : PushCall) w :
  pc_done c = false →
  push_call c w =
    (inr tt,
     recorded (pc_state c) (pc_action c) (pc_reward c) (pc_next_state c)
       (pc_curr_available_actions c) (pc_next_available_actions c)
       (pc_action_space c) false (pc_cost c) w).
Proof. intros Hd. unfold push_call. rewrite Hd. apply push_not_done. Qed.

Lemma push_all_app (cs1 cs2 : list PushCall) w :
  push_all (cs1 ++ cs2) w =
    match push_all cs1 w with
    | (inl x, w1) => (inl x, w1)
    | (inr _, w1) => push_all cs2 w1
    end.
Proof.
  revert w. induction cs1 as [|c cs1 IH]; intros w; [done|].
  cbn [app push_all]. unfold mbind, M_bind, bind.
  destruct (push_call c w) as [[x|[]] w1]; [done|]. apply IH.
Qed.

(** While [done] is false the calls only record: one entry and one
    original each, the heap as it was. *)
Lemma push_all_not_done (cs : list PushCall) : ∀ w,
  Forall (λ c, pc_done c = false) cs →
  ∃ w1, push_all cs w = (inr tt, w1) ∧
        same_config (self w) (self w1) ∧
        heap w1 = heap w ∧
        trajectory (self w1) = trajectory (self w) ++ (entry_of <$> cs) ∧
        store (self w1) = store (self w) ++ (original_of (heap w) <$> cs).
Proof.
  induction cs as [|c cs IH]; intros w HF.
  - exists w. cbn. rewrite !app_nil_r. by split_and!.
  - apply Forall_cons in HF as [Hc HF]. cbn [push_all].
    unfold mbind, M_bind, bind. rewrite (push_call_not_done c w Hc).
    destruct (IH (recorded (pc_state c) (pc_action c) (pc_reward c)
                    (pc_next_state c) (pc_curr_available_actions c)
                    (pc_next_available_actions c) (pc_action_space c)
                    false (pc_cost c) w) HF)
      as (w1 & Hrun & Hcfg & Hh & Ht & Hs).
    exists w1. split; [done|]. cbn in Hcfg, Hh, Ht, Hs.
    split; [done|]. split; [done|].
    rewrite Ht, Hs, <-!app_assoc. cbn.
    unfold entry_of at 2, original_of at 2. by rewrite Hc.
Qed.

(** *** Theorems *)

(** C1 (as amended).  A terminal push that returns has relabelled in
    place: [additional_goal] is [next_state[: -goal_dim]], the leading
    part of the final next_state as it was on entry (everything but its
    trailing [goal_dim] elements).  For every buffered transition, the
    slice [[-goal_dim:]] of the state and of the next_state tensor has
    been assigned [additional_goal] (repeated, when it is a single
    element), the part before it and the length are kept, the tensors
    are the caller's own objects, every other object is untouched, and the
    records pushed, in the order of the trajectory, hold the rewritten
    values. *)
Theorem push_done_overwrites_goal_in_place
    s a r ns caa naa asp c w w' :
  push s a r ns caa naa asp true c w = (inr tt, w') →
  let g := goal_dim (self w) in
  let goal := additional_goal (self w) (heap w) ns in
  let traj := trajectory (self w) ++ [mkEntry s a ns caa naa asp true c] in
  goal = slice_to (heap w !!! ns) (- g) ∧
  (∀ e l, e ∈ traj → l = en_state e ∨ l = en_next_state e →
     length (heap w' !!! l) = length (heap w !!! l) ∧
     slice_to (heap w' !!! l) (- g) = slice_to (heap w !!! l) (- g) ∧
     (slice_from (heap w' !!! l) (- g) = goal ∨
      ∃ x, goal = [x] ∧
           slice_from (heap w' !!! l) (- g)
           = replicate (length (slice_from (heap w !!! l) (- g))) x)) ∧
  (∀ l, (∀ e, e ∈ traj → l ≠ en_state e ∧ l ≠ en_next_state e) →
     heap w' !! l = heap w !! l) ∧
  ∃ rel,
    store (self w') = store (self w) ++
      mkTransition (heap w !!! s) a r (heap w !!! ns) caa naa asp true c
      :: rel ∧
    Forall2 (λ e t, tr_state t = heap w' !!! en_state e ∧
                    tr_next_state t = heap w' !!! en_next_state e) traj rel.
Proof.
  intros Hp g goal traj.
  apply push_done_spec in Hp as (_ & _ & _ & Hf & rel & Hs & HF & _ & Hlen & Hall).
  fold g goal traj in Hf, HF, Hlen, Hall.
  split; [done|]. split; [|split; [done|]].
  - intros e l He Hl.
    assert (relabelled (self w) goal (heap w) l = Some (heap w' !!! l)) as Hr.
    { destruct (Hall e He) as [H1 H2]. by destruct Hl as [->| ->]. }
    unfold relabelled in Hr. fold g in Hr. split_and!.
    + by eapply setslice_from_length.
    + by eapply setslice_from_slice_to.
    + by eapply setslice_from_slice_from.
  - exists rel. split; [done|].
    rewrite Hlen, firstn_all in HF.
    apply Forall2_same_length_lookup. split; [by eapply Forall2_length|].
    intros i e t Hi Ht.
    pose proof (Forall2_lookup_lr _ _ _ _ _ _ HF Hi Ht) as (H1 & H2 & _).
    destruct (Hall e) as [H3 H4]; [by eapply list_elem_of_lookup_2|].
    split; congruence.
Qed.

(** C5 (as amended).  An episode pushed call by call into a buffer with
    no pending trajectory, all calls but the last with [done = false].
    While it runs every call returns, adds its entry to the trajectory and
    its original, and nothing else, to the store.  The terminal call adds
    its original and then the relabelled records: when it returns, one for
    each transition of the episode, so that the store has received twice
    the length of the episode and the trajectory is empty; when it raises
    while relabelling, fewer, so that the store has received all the
    originals but less than twice the length of the episode, and the
    episode is still on the trajectory. *)
Theorem episode_pushes_twice_its_length
    (ep : list PushCall) (last : PushCall) w res w' :
  trajectory (self w) = [] →
  Forall (λ c, pc_done c = false) ep →
  pc_done last = true →
  push_all (ep ++ [last]) w = (res, w') →
  (∀ k, ∃ wk,
     push_all (take k ep) w = (inr tt, wk) ∧
     heap wk = heap w ∧
     trajectory (self wk) = entry_of <$> take k ep ∧
     store (self wk) = store (self w) ++ (original_of (heap w) <$> take k ep)) ∧
  ∃ rel,
    store (self w') =
      store (self w) ++ (original_of (heap w) <$> ep ++ [last]) ++ rel ∧
    match res with
    | inr _ =>
        length rel = length (ep ++ [last]) ∧
        length (store (self w'))
        = (length (store (self w)) + 2 * length (ep ++ [last]))%nat ∧
        trajectory (self w') = []
    | inl _ =>
        (length rel < length (ep ++ [last]))%nat ∧
        (length (store (self w)) + length (ep ++ [last])
         ≤ length (store (self w'))
         < length (store (self w)) + 2 * length (ep ++ [last]))%nat ∧
        trajectory (self w') = entry_of <$> ep ++ [last]
    end.
Proof.
  intros Hnil Hep Hlast Hrun.
  split.
  { intros k.
    destruct (push_all_not_done (take k ep) w) as (wk & Hk & _ & Hh & Ht & Hs);
      [by apply Forall_take|].
    exists wk. rewrite Hnil in Ht. by split_and!. }
  rewrite push_all_app in Hrun.
  destruct (push_all_not_done ep w Hep) as (w1 & H1 & Hcfg & Hh & Ht & Hs).
  rewrite H1 in Hrun. cbn [push_all] in Hrun.
  unfold mbind, M_bind, bind in Hrun.
  destruct (push_call last w1) as [r2 w2] eqn:E.
  assert (res = r2 ∧ w' = w2) as [-> ->].
  { destruct r2 as [x|[]]; by injection Hrun as <- <-. }
  clear Hrun. unfold push_call in E. rewrite Hlast in E.
  apply push_done_spec in E as (_ & _ & _ & _ & rel & Hs2 & _ & Hres).
  rewrite Ht, Hnil in Hres. cbn [app] in Hres.
  assert (length (entry_of <$> ep) + 1 = length (ep ++ [last]))%nat as Hlen.
  { by rewrite length_app, length_fmap. }
  assert (store (self w2) =
          store (self w) ++ (original_of (heap w) <$> ep ++ [last]) ++ rel) as Hst.
  { rewrite Hs2, Hs, Hh, fmap_app, <-!app_assoc. cbn.
    unfold original_of at 3. by rewrite Hlast. }
  assert (length (store (self w2))
          = (length (store (self w)) + length (ep ++ [last]) + length rel)%nat)
    as Hcount.
  { rewrite Hst, !length_app, length_fmap, !length_app. lia. }
  exists rel. split; [done|].
  destruct r2 as [x|[]].
  - destruct Hres as [Htr Hlt]. rewrite length_app in Hlt. cbn in Hlt.
    split_and!; [lia..|].
    rewrite Htr, fmap_app. cbn [fmap list_fmap]. f_equal.
    unfold entry_of. by rewrite Hlast.
  - destruct Hres as (Htr & Hl & _). rewrite length_app in Hl. cbn in Hl.
    split_and!; [lia..|done].
Qed.

(** The loop never touches [self._trajectory]. *)
Lemma relabel_step_trajectory v e w :
  trajectory (self (snd (relabel_step v e w))) = trajectory (self w).
Proof.
  unfold relabel_step. rewrite setslice_run.
  destruct (setslice_from _ _ _) as [t1|]; [|done].
  rewrite setslice_run. cbn [heap self].
  destruct (setslice_from _ _ _) as [t2|]; [|done]. cbn [heap self].
  destruct (reward_fn _ _ _) as [x|rw]; [done|].
  destruct (done_fn (self w)) as [f|]; [|done].
  by destruct (f _ _) as [x|d].
Qed.

Lemma relabel_trajectory v traj : ∀ w,
  trajectory (self (snd (relabel v traj w))) = trajectory (self w).
Proof.
  induction traj as [|e rest IH]; intros w; [done|].
  rewrite relabel_cons. pose proof (relabel_step_trajectory v e w) as Hs.
  destruct (relabel_step v e w) as [[x|[]] w1]; [done|].
  cbn [snd] in Hs. by rewrite IH.
Qed.

(** C6 (as amended).  The pushes made while relabelling go to the base
    class: each adds one record to the store and leaves the trajectory
    alone, so that a terminal push adds at most one record per buffered
    transition.  After a push with [done = false] the trajectory is not
    empty; after a push with [done = true] that returns it is empty; after
    one that raises it still holds the whole episode. *)
Theorem trajectory_after_push s a r ns caa naa asp d c w res w' :
  push s a r ns caa naa asp d c w = (res, w') →
  let e := mkEntry s a ns caa naa asp d c in
  (d = false →
     res = inr tt ∧ trajectory (self w') = trajectory (self w) ++ [e] ∧
     trajectory (self w') ≠ []) ∧
  (d = true → res = inr tt → trajectory (self w') = []) ∧
  (d = true → res ≠ inr tt →
     trajectory (self w') = trajectory (self w) ++ [e]) ∧
  (length (store (self w'))
   ≤ length (store (self w)) + 1 +
     (if d then length (trajectory (self w) ++ [e]) else 0))%nat ∧
  (∀ v traj w0,
     trajectory (self (snd (relabel v traj w0))) = trajectory (self w0)) ∧
  (∀ s1 a1 r1 ns1 caa1 naa1 asp1 d1 c1 w0,
     let w1 := snd (super_push s1 a1 r1 ns1 caa1 naa1 asp1 d1 c1 w0) in
     trajectory (self w1) = trajectory (self w0) ∧
     length (store (self w1)) = S (length (store (self w0)))).
Proof.
  intros Hp e. split_and!.
  - intros ->. rewrite push_not_done in Hp. injection Hp as <- <-.
    cbn. split_and!; [done..|]. by destruct (trajectory (self w)).
  - intros -> ->.
    by apply push_done_spec in Hp as (_ & _ & _ & _ & rel & _ & _ & ? & _).
  - intros -> Hres. destruct res as [x|[]]; [|done].
    by apply push_done_spec in Hp as (_ & _ & _ & _ & rel & _ & _ & ? & _).
  - destruct d.
    + apply push_done_spec in Hp as (_ & _ & _ & _ & rel & Hs & _ & Hres).
      rewrite Hs, length_app. cbn [length].
      destruct res as [x|[]]; [destruct Hres as [_ Hres]|destruct Hres as (_&Hres&_)];
        fold e in Hres; lia.
    + rewrite push_not_done in Hp. injection Hp as <- <-.
      cbn. rewrite length_app. cbn. lia.
  - intros v traj w0. apply relabel_trajectory.
  - intros s1 a1 r1 ns1 caa1 naa1 asp1 d1 c1 w0 w1. subst w1.
    rewrite super_push_run. cbn. rewrite length_app. cbn. split; [done|lia].
Qed.

(** C7.  Every record pushed by the relabelling pass carries the state
    after relabelling, the action of its transition, the reward that
    [reward_fn] returns on that state and action, and as its done flag
    what [done_fn] returns on them when there is a [done_fn], the done
    flag of the original transition otherwise.  The records are those of
    the buffered transitions in order; all of them when the push returns. *)
Theorem relabelled_reward_and_done s a r ns caa naa asp c w res w' :
  push s a r ns caa naa asp true c w = (res, w') →
  ∃ rel,
    store (self w') = store (self w) ++
      mkTransition (heap w !!! s) a r (heap w !!! ns) caa naa asp true c
      :: rel ∧
    (res = inr tt →
     length rel
     = length (trajectory (self w) ++ [mkEntry s a ns caa naa asp true c])) ∧
    Forall2
      (λ e t,
         relabelled (self w) (additional_goal (self w) (heap w) ns) (heap w)
           (en_state e) = Some (tr_state t) ∧
         tr_action t = en_action e ∧
         reward_fn (self w) (tr_state t) (tr_action t) = inr (tr_reward t) ∧
         match done_fn (self w) with
         | Some f => f (tr_state t) (tr_action t) = inr (tr_done t)
         | None => tr_done t = en_done e
         end)
      (take (length rel)
         (trajectory (self w) ++ [mkEntry s a ns caa naa asp true c]))
      rel.
Proof.
  intros Hp.
  apply push_done_spec in Hp as (_ & _ & _ & _ & rel & Hs & HF & Hres).
  exists rel. split; [done|]. split.
  - intros ->. by destruct Hres as (_ & ? & _).
  - eapply Forall2_impl; [exact HF|].
    intros e t (H1 & _ & H2 & H3 & H4 & _). rewrite H2. split_and!; try done.
Qed.

(** *** Failures of a terminal push *)

Lemma push_done_first_shape s a r ns caa naa asp c w e0 rest :
  trajectory (self w) ++ [mkEntry s a ns caa naa asp true c] = e0 :: rest →
  relabelled (self w) (additional_goal (self w) (heap w) ns) (heap w)
    (en_state e0) = None →
  push s a r ns caa naa asp true c w
  = (inl RuntimeError, recorded s a r ns caa naa asp true c w).
Proof.
  intros Htraj Hn. rewrite push_done. cbn zeta. cbn [recorded self trajectory].
  rewrite Htraj.
  by rewrite (relabel_first_shape (self w) (heap w));
    [|done|by repeat split|by intros l|done].
Qed.

Lemma push_done_ok s a r ns caa naa asp c w :
  Forall (entry_ok (self w) (additional_goal (self w) (heap w) ns) (heap w))
    (trajectory (self w) ++ [mkEntry s a ns caa naa asp true c]) →
  fst (push s a r ns caa naa asp true c w) = inr tt.
Proof.
  intros HF. rewrite push_done. cbn zeta. cbn [recorded self trajectory].
  edestruct (relabel_ok (self w) (heap w)) as [w3 ->];
    [| |by intros l|exact HF|done]; [done|by repeat split].
Qed.

Lemma push_done_reward_raises s a r ns caa naa asp c w pre e post t x :
  trajectory (self w) ++ [mkEntry s a ns caa naa asp true c]
    = pre ++ e :: post →
  Forall (entry_ok (self w) (additional_goal (self w) (heap w) ns) (heap w))
    pre →
  relabelled (self w) (additional_goal (self w) (heap w) ns) (heap w)
    (en_state e) = Some t →
  is_Some (relabelled (self w) (additional_goal (self w) (heap w) ns)
             (heap w) (en_next_state e)) →
  reward_fn (self w) t (en_action e) = inl x →
  fst (push s a r ns caa naa asp true c w) = inl x.
Proof.
  intros Htraj HF E1 E2 Er. rewrite push_done. cbn zeta.
  set (w2 := recorded s a r ns caa naa asp true c w).
  change (trajectory (self w2))
    with (trajectory (self w) ++ [mkEntry s a ns caa naa asp true c]).
  rewrite Htraj. set (v := mkView ns _).
  pose proof (relabel_reward_raises (self w) (heap w) v eq_refl pre e post t x
                w2) as Hr.
  destruct (relabel v (pre ++ e :: post) w2) as [[y|[]] w3];
    cbn [fst] in Hr |- *; apply Hr; try done; by repeat split.
Qed.

(** The assignment [t[-g:] = goal] for a tensor of [n] elements and a goal
    of [n - g]. *)
Lemma setslice_from_uniform (t goal : list A) (g : Z) (n : nat) :
  0 < g → length t = n → length goal = (n - Z.to_nat g)%nat →
  (n ≠ (2 * Z.to_nat g)%nat → n ≠ S (Z.to_nat g) → n ≠ 0%nat →
   setslice_from t (- g) goal = None) ∧
  (n = (2 * Z.to_nat g)%nat ∨ n = S (Z.to_nat g) ∨ n = 0%nat →
   is_Some (setslice_from t (- g) goal)).
Proof.
  intros Hg Ht Hgoal. unfold setslice_from.
  rewrite Ht, (slice_index_neg _ _ Hg). split.
  - intros H1 H2 H3. rewrite expand_None; [done|lia..].
  - intros H. destruct (expand_is_Some goal (n - (n - Z.to_nat g))%nat)
      as [v ->]; [lia|]. by eexists.
Qed.

(** C8 (as amended).  An exception raised by [reward_fn] while
    relabelling is the exception that [push] raises.  A state shorter than
    [goal_dim] raises nothing when it is pushed with [done = false].  At
    the terminal push, when the first buffered state is shorter than
    [goal_dim], the slice [state[-goal_dim:]] is the whole state, and the
    first assignment fails exactly when the goal [next_state[:-goal_dim]]
    has neither as many elements as that state nor a single one: so it
    does when the state is not empty and the final next_state is no longer
    than [goal_dim] (the goal is empty), and it does not when the state is
    empty as well.  The failure is torch's shape error, a [RuntimeError],
    which [push] lets through with the original recorded and the
    trajectory kept. *)
Theorem push_errors_propagate s a r ns caa naa asp c w :
  (∀ pre e post t x,
     trajectory (self w) ++ [mkEntry s a ns caa naa asp true c]
       = pre ++ e :: post →
     Forall (entry_ok (self w) (additional_goal (self w) (heap w) ns) (heap w))
       pre →
     relabelled (self w) (additional_goal (self w) (heap w) ns) (heap w)
       (en_state e) = Some t →
     is_Some (relabelled (self w) (additional_goal (self w) (heap w) ns)
                (heap w) (en_next_state e)) →
     reward_fn (self w) t (en_action e) = inl x →
     fst (push s a r ns caa naa asp true c w) = inl x) ∧
  (∀ e0 rest,
     trajectory (self w) ++ [mkEntry s a ns caa naa asp true c] = e0 :: rest →
     0 < goal_dim (self w) →
     (0 < length (heap w !!! en_state e0) < Z.to_nat (goal_dim (self w)))%nat →
     (length (heap w !!! ns) ≤ Z.to_nat (goal_dim (self w)))%nat →
     push s a r ns caa naa asp true c w
     = (inl RuntimeError, recorded s a r ns caa naa asp true c w)) ∧
  (∀ e0 rest,
     trajectory (self w) ++ [mkEntry s a ns caa naa asp true c] = e0 :: rest →
     0 < goal_dim (self w) →
     (length (heap w !!! en_state e0) < Z.to_nat (goal_dim (self w)))%nat →
     let goal := additional_goal (self w) (heap w) ns in
     length goal
     = (length (heap w !!! ns) - Z.to_nat (goal_dim (self w)))%nat ∧
     (length goal ≠ length (heap w !!! en_state e0) → length goal ≠ 1%nat →
      push s a r ns caa naa asp true c w
      = (inl RuntimeError, recorded s a r ns caa naa asp true c w)) ∧
     (length goal = length (heap w !!! en_state e0) ∨ length goal = 1%nat →
      ∃ t, relabelled (self w) goal (heap w) (en_state e0) = Some t ∧
           length t = length (heap w !!! en_state e0))) ∧
  push s a r ns caa naa asp false c w
  = (inr tt, recorded s a r ns caa naa asp false c w).
Proof.
  split_and!.
  - intros *. apply push_done_reward_raises.
  - intros e0 rest Htraj Hg Hs Hns. apply (push_done_first_shape _ _ _ _ _ _ _ _ _ e0 rest Htraj).
    unfold relabelled, additional_goal, slice_to, setslice_from.
    rewrite !(slice_index_neg _ _ Hg).
    rewrite expand_None; [done|rewrite length_take; lia..].
  - intros e0 rest Htraj Hg Hs goal. split_and!.
    + unfold goal, additional_goal, slice_to.
      rewrite (slice_index_neg _ _ Hg), length_take. lia.
    + intros H1 H2.
      apply (push_done_first_shape _ _ _ _ _ _ _ _ _ e0 rest Htraj).
      fold goal. unfold relabelled, setslice_from.
      rewrite (slice_index_neg _ _ Hg).
      rewrite expand_None; [done|lia..].
    + intros H.
      destruct (expand_is_Some goal
                  (length (heap w !!! en_state e0)
                   - (length (heap w !!! en_state e0)
                      - Z.to_nat (goal_dim (self w))))%nat) as [v Hv]; [lia|].
      exists (take (length (heap w !!! en_state e0)
                    - Z.to_nat (goal_dim (self w))) (heap w !!! en_state e0)
              ++ v).
      assert (relabelled (self w) goal (heap w) (en_state e0)
              = Some (take (length (heap w !!! en_state e0)
                            - Z.to_nat (goal_dim (self w)))
                        (heap w !!! en_state e0) ++ v)) as Hr.
      { unfold relabelled, setslice_from.
        rewrite (slice_index_neg _ _ Hg), Hv. done. }
      split; [done|]. by eapply setslice_from_length.
  - apply push_not_done.
Qed.

(** C10 (as amended).  Take [goal_dim > 0] and an episode whose tensors
    all have [n] elements.  Then [additional_goal] has [n - goal_dim]
    elements (none when [n < goal_dim]) and is assigned into slices of
    [min goal_dim n] elements.  The assignment is possible exactly when the
    two sizes agree or [additional_goal] is a single element, which torch
    repeats: when [n] is [2 * goal_dim], [goal_dim + 1] or [0].  For every
    other [n] the first assignment raises the shape error: [push] raises
    [RuntimeError], no relabelled record is pushed, the heap is as it was
    and the trajectory is kept.  For those three, a terminal push whose
    callbacks return does return, with one relabelled record for each
    buffered transition. *)
Theorem relabelling_shape_condition s a r ns caa naa asp c w n res w' :
  0 < goal_dim (self w) →
  (∀ e l, e ∈ trajectory (self w) ++ [mkEntry s a ns caa naa asp true c] →
          l = en_state e ∨ l = en_next_state e →
          length (heap w !!! l) = n) →
  push s a r ns caa naa asp true c w = (res, w') →
  length (additional_goal (self w) (heap w) ns)
    = (n - Z.to_nat (goal_dim (self w)))%nat ∧
  (∀ e l, e ∈ trajectory (self w) ++ [mkEntry s a ns caa naa asp true c] →
          l = en_state e ∨ l = en_next_state e →
          length (slice_from (heap w !!! l) (- goal_dim (self w)))
          = (Z.to_nat (goal_dim (self w)) `min` n)%nat) ∧
  (n ≠ (2 * Z.to_nat (goal_dim (self w)))%nat →
   n ≠ S (Z.to_nat (goal_dim (self w))) → n ≠ 0%nat →
   res = inl RuntimeError ∧
   heap w' = heap w ∧
   store (self w') = store (self w) ++
     [mkTransition (heap w !!! s) a r (heap w !!! ns) caa naa asp true c] ∧
   trajectory (self w')
   = trajectory (self w) ++ [mkEntry s a ns caa naa asp true c]) ∧
  (n = (2 * Z.to_nat (goal_dim (self w)))%nat ∨
   n = S (Z.to_nat (goal_dim (self w))) ∨ n = 0%nat →
   (∀ t a', ∃ rw, reward_fn (self w) t a' = inr rw) →
   (∀ f, done_fn (self w) = Some f → ∀ t a', ∃ d, f t a' = inr d) →
   res = inr tt ∧
   length (store (self w'))
   = (length (store (self w)) + 1 +
      length (trajectory (self w) ++ [mkEntry s a ns caa naa asp true c]))%nat).
Proof.
  intros Hg Hn Hp.
  set (traj := trajectory (self w) ++ [mkEntry s a ns caa naa asp true c]) in *.
  set (g := goal_dim (self w)) in *.
  assert (length (heap w !!! ns) = n) as Hns.
  { apply (Hn (mkEntry s a ns caa naa asp true c)); [|by right].
    apply elem_of_app. right. by apply list_elem_of_singleton. }
  assert (length (additional_goal (self w) (heap w) ns) = (n - Z.to_nat g)%nat)
    as Hgoal.
  { unfold additional_goal, slice_to. fold g.
    rewrite Hns, (slice_index_neg _ _ Hg), length_take. lia. }
  split; [done|]. split.
  { intros e l He Hl. unfold slice_from.
    rewrite length_drop, (Hn e l He Hl), (slice_index_neg _ _ Hg). lia. }
  split.
  - intros H1 H2 H3.
    destruct traj as [|e0 rest] eqn:Htraj.
    { subst traj. by destruct (trajectory (self w)). }
    assert (push s a r ns caa naa asp true c w
            = (inl RuntimeError, recorded s a r ns caa naa asp true c w)) as Hf.
    { apply (push_done_first_shape _ _ _ _ _ _ _ _ _ e0 rest Htraj).
      apply setslice_from_uniform with (n := n); try done.
      apply (Hn e0); [left|by left]. }
    rewrite Hf in Hp. injection Hp as <- <-. by rewrite <-Htraj.
  - intros Hcase Hrw Hdn.
    assert (fst (push s a r ns caa naa asp true c w) = inr tt) as Hok.
    { apply push_done_ok. fold traj. apply Forall_forall. intros e He.
      destruct (setslice_from_uniform (heap w !!! en_state e)
                  (additional_goal (self w) (heap w) ns) g n)
        as [_ [t Ht]]; [done|by apply (Hn e); auto|done|done|].
      destruct (setslice_from_uniform (heap w !!! en_next_state e)
                  (additional_goal (self w) (heap w) ns) g n)
        as [_ Ht2]; [done|by apply (Hn e); auto|done|].
      exists t. split_and!; [done|by apply Ht2|apply Hrw|].
      destruct (done_fn (self w)) as [f|] eqn:Ef; [|done]. by apply (Hdn f). }
    rewrite Hp in Hok. cbn in Hok. subst res. split; [done|].
    apply push_done_spec in Hp as (_ & _ & _ & _ & rel & Hs & _ & _ & Hlen & _).
    fold traj in Hlen. rewrite Hs, length_app. cbn. lia.
Qed.

(** *** Further properties of [push] *)


(** X2.  Whether it returns or raises, [push] leaves the configuration of
    the buffer alone, and of every tensor on the heap it keeps the length
    and everything before the slice [[-goal_dim:]]. *)
Theorem push_keeps_lengths_and_leading_parts
    s a r ns caa naa asp d c w res w' :
  push s a r ns caa naa asp d c w = (res, w') →
  capacity (self w') = capacity (self w) ∧
  goal_dim (self w') = goal_dim (self w) ∧
  reward_fn (self w') = reward_fn (self w) ∧
  done_fn (self w') = done_fn (self w) ∧
  ∀ l, length (heap w' !!! l) = length (heap w !!! l) ∧
       slice_to (heap w' !!! l) (- goal_dim (self w))
       = slice_to (heap w !!! l) (- goal_dim (self w)).
Proof.
  intros Hp.
  assert (same_config (self w) (self w') ∧
          prefixes_kept (self w) (heap w) (heap w')) as [(?&?&?&?) Hk].
  { destruct d.
    - by apply push_done_spec in Hp as (? & ? & _).
    - rewrite push_not_done in Hp. injection Hp as <- <-. cbn.
      split; [by repeat split|by intros l]. }
  split_and!; try done.
  intros l. destruct (Hk l) as [Hl Ht]. split; [done|].
  unfold slice_to. by rewrite <-Hl, Ht.
Qed.

(** X3.  A tensor that is neither an argument of the call nor referred to
    by the pending trajectory is not touched by [push], whether it returns
    or raises; with [done = false] no tensor at all is touched. *)
Theorem push_leaves_other_tensors_alone
    s a r ns caa naa asp d c w res w' :
  push s a r ns caa naa asp d c w = (res, w') →
  (∀ l, l ≠ s → l ≠ ns →
        (∀ e, e ∈ trajectory (self w) →
              l ≠ en_state e ∧ l ≠ en_next_state e) →
        heap w' !! l = heap w !! l) ∧
  (d = false → heap w' = heap w).
Proof.
  intros Hp. destruct d.
  - apply push_done_spec in Hp as (_ & _ & _ & Hf & _).
    split; [|done]. intros l Hs Hns Htr. apply Hf.
    intros e [He| ->%list_elem_of_singleton]%elem_of_app; [by apply Htr|done].
  - rewrite push_not_done in Hp. injection Hp as <- <-. by split.
Qed.

(** X4.  A terminal push relabels everything that is pending, whoever
    left it there: for a buffer with [k] pending entries (those of an
    earlier terminal push that raised, say) an episode of [m] calls that
    all return adds [m] originals and [k + m] relabelled records, and
    leaves the trajectory empty. *)
Theorem terminal_push_relabels_all_pending
    (ep : list PushCall) (last : PushCall) w w' :
  Forall (λ c, pc_done c = false) ep →
  pc_done last = true →
  push_all (ep ++ [last]) w = (inr tt, w') →
  length (store (self w'))
  = (length (store (self w)) + length (ep ++ [last]) +
     (length (trajectory (self w)) + length (ep ++ [last])))%nat ∧
  trajectory (self w') = [].
Proof.
  intros Hep Hlast Hrun. rewrite push_all_app in Hrun.
  destruct (push_all_not_done ep w Hep) as (w1 & H1 & Hcfg & Hh & Ht & Hs).
  rewrite H1 in Hrun. cbn [push_all] in Hrun.
  unfold mbind, M_bind, bind in Hrun.
  destruct (push_call last w1) as [[x|[]] w2] eqn:E; [done|].
  injection Hrun as ->. unfold push_call in E. rewrite Hlast in E.
  apply push_done_spec in E as (_ & _ & _ & _ & rel & Hs2 & _ & Hnil & Hlen & _).
  split; [|done].
  rewrite Hs2, Hs, !length_app, length_fmap. cbn [length].
  rewrite Hlen, Ht, !length_app, length_fmap. cbn. lia.
Qed.

(** X5.  The relabelled episode ends on its goal.  After a terminal push
    that returns, with states of [2 * goal_dim] elements, the goal part of
    the final next_state tensor is its own state part, which is the state
    part it had on entry. *)
Theorem relabelled_episode_ends_on_its_goal s a r ns caa naa asp c w w' :
  0 < goal_dim (self w) →
  length (heap w !!! ns) = (2 * Z.to_nat (goal_dim (self w)))%nat →
  push s a r ns caa naa asp true c w = (inr tt, w') →
  slice_from (heap w' !!! ns) (- goal_dim (self w))
  = slice_to (heap w' !!! ns) (- goal_dim (self w)) ∧
  slice_to (heap w' !!! ns) (- goal_dim (self w))
  = slice_to (heap w !!! ns) (- goal_dim (self w)).
Proof.
  intros Hg Hlen Hp.
  apply push_done_spec in Hp as (_ & _ & _ & _ & rel & _ & _ & _ & _ & Hall).
  destruct (Hall (mkEntry s a ns caa naa asp true c)) as [_ Hns].
  { apply elem_of_app. right. by apply list_elem_of_singleton. }
  cbn [en_next_state] in Hns. unfold relabelled, additional_goal in Hns.
  pose proof (setslice_from_slice_to _ _ _ _ Hns) as Hto.
  split; [|done]. rewrite Hto.
  destruct (setslice_from_slice_from _ _ _ _ Hns) as [->|(x & Hx & ->)]; [done|].
  rewrite Hx. unfold slice_from.
  rewrite length_drop, (slice_index_neg _ _ Hg), Hlen.
  assert (length (slice_to (heap w !!! ns) (- goal_dim (self w))) = 1%nat)
    as Hone by (by rewrite Hx).
  unfold slice_to in Hone.
  rewrite length_take, (slice_index_neg _ _ Hg), Hlen in Hone.
  by replace (2 * Z.to_nat (goal_dim (self w))
              - (2 * Z.to_nat (goal_dim (self w))
                 - Z.to_nat (goal_dim (self w))))%nat with 1%nat by lia.
Qed.

(** X6.  An exception raised by [done_fn] while relabelling is the
    exception that [push] raises, and the record of that transition is not
    pushed: the store has the original and one relabelled record for each
    transition before it.  [reward_fn] has been called first and has
    returned. *)
Theorem done_fn_exception_propagates
    s a r ns caa naa asp c w pre e post t rw f x res w' :
  trajectory (self w) ++ [mkEntry s a ns caa naa asp true c]
    = pre ++ e :: post →
  Forall (entry_ok (self w) (additional_goal (self w) (heap w) ns) (heap w))
    pre →
  relabelled (self w) (additional_goal (self w) (heap w) ns) (heap w)
    (en_state e) = Some t →
  is_Some (relabelled (self w) (additional_goal (self w) (heap w) ns)
             (heap w) (en_next_state e)) →
  reward_fn (self w) t (en_action e) = inr rw →
  done_fn (self w) = Some f →
  f t (en_action e) = inl x →
  push s a r ns caa naa asp true c w = (res, w') →
  res = inl x ∧
  length (store (self w')) = (length (store (self w)) + 1 + length pre)%nat.
Proof.
  intros Htraj HF E1 E2 Er Hf Ed. rewrite push_done. cbn zeta.
  set (w2 := recorded s a r ns caa naa asp true c w).
  change (trajectory (self w2))
    with (trajectory (self w) ++ [mkEntry s a ns caa naa asp true c]).
  rewrite Htraj. set (v := mkView ns _).
  destruct (relabel_prefix_ok (self w) (heap w) v eq_refl pre (e :: post) w2)
    as (w3 & Hrun & Hc3 & Hk3 & Hlen3); [done|by intros l|done|].
  rewrite Hrun, relabel_cons.
  destruct (relabel_step_done_raises (self w) (heap w) v eq_refl e t rw f x w3)
    as (w4 & -> & Hs4); try done.
  intros [= <- <-]. split; [done|].
  rewrite Hs4, Hlen3. unfold w2. cbn. rewrite length_app. cbn. lia.
Qed.

(** X7.  For an episode pushed from start to end, the relabelled records
    are copies of the originals, in their order: same actions, action
    spaces and costs, the same done flags when there is no [done_fn], and
    states of the same length with the same leading part.  Only the goal
    slice of the states, the reward and, with a [done_fn], the done flag
    are new. *)
Theorem relabelled_records_mirror_originals
    (ep : list PushCall) (last : PushCall) w w' :
  trajectory (self w) = [] →
  Forall (λ c, pc_done c = false) ep →
  pc_done last = true →
  push_all (ep ++ [last]) w = (inr tt, w') →
  ∃ rel,
    store (self w') =
      store (self w) ++ (original_of (heap w) <$> ep ++ [last]) ++ rel ∧
    Forall2 (mirrors (self w)) (original_of (heap w) <$> ep ++ [last]) rel.
Proof.
  intros Hnil Hep Hlast Hrun. rewrite push_all_app in Hrun.
  destruct (push_all_not_done ep w Hep) as (w1 & H1 & Hcfg & Hh & Ht & Hs).
  rewrite H1 in Hrun. cbn [push_all] in Hrun.
  unfold mbind, M_bind, bind in Hrun.
  destruct (push_call last w1) as [[x|[]] w2] eqn:E; [done|].
  injection Hrun as ->. unfold push_call in E. rewrite Hlast in E.
  apply push_done_spec in E as (_ & _ & _ & _ & rel & Hs2 & HF & _ & Hlen & _).
  rewrite Hlen, firstn_all, Ht, Hnil, Hh in HF. cbn [app] in HF.
  assert ((entry_of <$> ep) ++
            [mkEntry (pc_state last) (pc_action last) (pc_next_state last)
               (pc_curr_available_actions last)
               (pc_next_available_actions last) (pc_action_space last)
               true (pc_cost last)]
          = entry_of <$> ep ++ [last]) as Hent.
  { rewrite fmap_app. cbn. unfold entry_of at 3. by rewrite Hlast. }
  rewrite Hent in HF. clear Hent.
  exists rel. split.
  { rewrite Hs2, Hs, Hh, fmap_app, <-!app_assoc. cbn.
    unfold original_of at 3. by rewrite Hlast. }
  rewrite Forall2_fmap_l. rewrite Forall2_fmap_l in HF.
  eapply Forall2_impl; [exact HF|]. unfold compose.
  destruct Hcfg as (_ & Hg & _ & Hd).
  intros c0 t (R1 & R2 & R3 & _ & R5 & R6 & R7 & R8 & R9).
  unfold relabelled in R1, R2. rewrite Hg in R1, R2.
  apply setslice_from_same_prefix in R1, R2.
  unfold mirrors, original_of. cbn. split_and!; try done.
  intros Hnone. rewrite Hd, Hnone in R5. done.
Qed.

(** X8.  Tensors that are one object get one value in the relabelled
    records: when the next_state of one buffered transition is the very
    tensor that is the state of another, as in a loop that passes each
    next_state on as the following state, the two records agree on it. *)
Theorem shared_tensors_agree_in_records
    s a r ns caa naa asp c w res w' :
  push s a r ns caa naa asp true c w = (res, w') →
  ∃ rel,
    store (self w') = store (self w) ++
      mkTransition (heap w !!! s) a r (heap w !!! ns) caa naa asp true c
      :: rel ∧
    ∀ i j e1 e2 t1 t2,
      (trajectory (self w) ++ [mkEntry s a ns caa naa asp true c]) !! i
        = Some e1 →
      (trajectory (self w) ++ [mkEntry s a ns caa naa asp true c]) !! j
        = Some e2 →
      rel !! i = Some t1 → rel !! j = Some t2 →
      (en_next_state e1 = en_state e2 → tr_next_state t1 = tr_state t2) ∧
      (en_state e1 = en_state e2 → tr_state t1 = tr_state t2) ∧
      (en_next_state e1 = en_next_state e2 →
       tr_next_state t1 = tr_next_state t2).
Proof.
  intros Hp.
  apply push_done_spec in Hp as (_ & _ & _ & _ & rel & Hs & HF & _).
  exists rel. split; [done|].
  intros i j e1 e2 t1 t2 Hi Hj Hti Htj.
  assert (∀ k e t,
            (trajectory (self w) ++ [mkEntry s a ns caa naa asp true c]) !! k
              = Some e →
            rel !! k = Some t →
            relabelled (self w) (additional_goal (self w) (heap w) ns)
              (heap w) (en_state e) = Some (tr_state t) ∧
            relabelled (self w) (additional_goal (self w) (heap w) ns)
              (heap w) (en_next_state e) = Some (tr_next_state t)) as Hrec.
  { intros k e t Hk Htk.
    assert (take (length rel)
              (trajectory (self w) ++ [mkEntry s a ns caa naa asp true c])
              !! k = Some e) as Hk'.
    { rewrite lookup_take_lt; [done|]. by eapply lookup_lt_Some. }
    by destruct (Forall2_lookup_lr _ _ _ _ _ _ HF Hk' Htk) as (? & ? & _). }
  destruct (Hrec i e1 t1 Hi Hti) as [A1 A2].
  destruct (Hrec j e2 t2 Hj Htj) as [B1 B2].
  split_and!; intros Heq; rewrite Heq in *; congruence.
Qed.

End her.

(** *** Concrete runs *)

(** The hypothesis of [push_done_overwrites_goal_in_place] at goal_dim 2
    and states of four elements. *)
Lemma push_done_overwrites_goal_in_place_witness :
  ∃ w', terminal_push world_2_4 = (inr tt, w') ∧
        additional_goal (self world_2_4) (heap world_2_4) 2%positive
          = [20; 21] ∧
        ∃ rel, store (self w') = store (self world_2_4) ++ rel ∧
               length rel = 2%nat.
Proof.
  exists (snd (terminal_push world_2_4)).
  assert (terminal_push world_2_4 = (inr tt, snd (terminal_push world_2_4)))
    as Hp by (vm_compute; reflexivity).
  split; [exact Hp|]. split; [vm_compute; reflexivity|].
  destruct (push_done_overwrites_goal_in_place _ _ _ _ _ _ _ _ _ _ Hp)
    as (_ & _ & _ & rel & Hs & HF).
  eexists. split; [exact Hs|].
  apply Forall2_length in HF. cbn [length]. rewrite <-HF. reflexivity.
Defined.

(** C1, as stated, fails: with goal_dim 2 the final next_state
    [[20; 21; 7; 8]] has the trailing elements [[7; 8]], while the goal
    written into the state is [[20; 21]]. *)
Lemma push_goal_is_not_the_trailing_elements :
  fst (terminal_push world_2_4) = inr tt ∧
  slice_from (heap world_2_4 !!! 2%positive) (-2) = [7; 8] ∧
  additional_goal (self world_2_4) (heap world_2_4) 2%positive = [20; 21] ∧
  slice_from (heap (snd (terminal_push world_2_4)) !!! 1%positive) (-2)
    = [20; 21] ∧
  slice_from (heap (snd (terminal_push world_2_4)) !!! 1%positive) (-2)
    ≠ slice_from (heap world_2_4 !!! 2%positive) (-2).
Proof. vm_compute. split_and!; try reflexivity. discriminate. Qed.

(** The hypotheses of [episode_pushes_twice_its_length] at an episode of
    two steps with states of four elements: four records reach the
    store. *)
Lemma episode_pushes_twice_its_length_witness :
  ∃ w', push_all ([step_1_2] ++ [step_2_1]) world_2_4 = (inr tt, w') ∧
        length (store (self w')) = 4%nat ∧
        trajectory (self w') = [].
Proof.
  exists (snd (push_all ([step_1_2] ++ [step_2_1]) world_2_4)).
  assert (push_all ([step_1_2] ++ [step_2_1]) world_2_4
          = (inr tt, snd (push_all ([step_1_2] ++ [step_2_1]) world_2_4)))
    as Hp by (vm_compute; reflexivity).
  split; [exact Hp|].
  assert (Forall (λ c : PushCall, pc_done c = false) [step_1_2]) as HF
    by (constructor; [reflexivity|constructor]).
  destruct (episode_pushes_twice_its_length [step_1_2] step_2_1 world_2_4 _ _
              eq_refl HF eq_refl Hp)
    as (_ & rel & _ & _ & Hlen & Htr).
  split; [rewrite Hlen; reflexivity|exact Htr].
Defined.

(** C5, as stated, fails: with goal_dim 2 and states of five elements the
    episode of two steps is pushed transition by transition, its terminal
    push raises torch's shape error at the first assignment, and the store
    has received the two originals, not four records. *)
Lemma raising_episode_pushes_only_the_originals :
  trajectory (self world_2_5) = [] ∧
  store (self world_2_5) = [] ∧
  pc_done step_1_2 = false ∧ pc_done step_2_1 = true ∧
  fst (push_all [step_1_2; step_2_1] world_2_5) = inl RuntimeError ∧
  length (store (self (snd (push_all [step_1_2; step_2_1] world_2_5))))
    = 2%nat ∧
  length (store (self (snd (push_all [step_1_2; step_2_1] world_2_5))))
    ≠ (2 * length [step_1_2; step_2_1])%nat.
Proof. vm_compute. split_and!; try reflexivity. discriminate. Qed.

(** C6, as stated, fails: with goal_dim 2 and states of five elements the
    terminal push raises, and the trajectory is still there. *)
Lemma trajectory_kept_when_relabelling_raises :
  fst (terminal_push world_2_5) = inl RuntimeError ∧
  trajectory (self (snd (terminal_push world_2_5))) ≠ [].
Proof. vm_compute. split; [reflexivity|discriminate]. Qed.

(** The hypothesis of [trajectory_after_push] at a terminal push that
    returns. *)
Lemma trajectory_after_push_witness :
  ∃ w', terminal_push world_2_4 = (inr tt, w') ∧ trajectory (self w') = [].
Proof.
  exists (snd (terminal_push world_2_4)).
  assert (terminal_push world_2_4 = (inr tt, snd (terminal_push world_2_4)))
    as Hp by (vm_compute; reflexivity).
  split; [exact Hp|].
  destruct (trajectory_after_push _ _ _ _ _ _ _ _ _ _ _ _ Hp) as (_ & H & _).
  by apply H.
Defined.

(** The hypothesis of [relabelled_reward_and_done] at a terminal push:
    the relabelled record carries the reward of the relabelled state. *)
Lemma relabelled_reward_and_done_witness :
  ∃ w' rel, terminal_push world_2_4 = (inr tt, w') ∧
            store (self w') = store (self world_2_4) ++
              mkTransition [10; 11; 7; 8] 0%nat 0 [20; 21; 7; 8] tt tt tt
                true None :: rel ∧
            length rel = 1%nat.
Proof.
  exists (snd (terminal_push world_2_4)).
  assert (terminal_push world_2_4 = (inr tt, snd (terminal_push world_2_4)))
    as Hp by (vm_compute; reflexivity).
  destruct (relabelled_reward_and_done _ _ _ _ _ _ _ _ _ _ _ Hp)
    as (rel & Hs & Hlen & _).
  exists rel. split; [exact Hp|]. split; [exact Hs|]. by apply Hlen.
Defined.

(** C8, as stated, fails: a state of one element pushed into a buffer of
    goal_dim 2 with [done = false] raises nothing; pushed with
    [done = true] it raises torch's shape error, not an [IndexError]; and
    with goal_dim 3 a state of two elements is relabelled without any
    error when the next_state has four, its single leading element being
    repeated. *)
Lemma short_state_raises_no_index_error :
  fst (push 1%positive 0%nat 0 2%positive tt tt tt false None world_2_1)
    = inr tt ∧
  fst (terminal_push world_2_1) = inl RuntimeError ∧
  fst (terminal_push world_2_1) ≠ inl IndexError ∧
  fst (terminal_push world_3_short) = inr tt ∧
  heap (snd (terminal_push world_3_short)) !!! 1%positive = [1; 1].
Proof. vm_compute. split_and!; try reflexivity. discriminate. Qed.

(** [push_errors_propagate] at a buffer whose [reward_fn] raises, at
    goal_dim 2 with states of one element, where the terminal push raises
    the shape error, and at goal_dim 2 with empty states, where the first
    assignment goes through. *)
Lemma push_errors_propagate_witness :
  fst (terminal_push world_raising) = inl (OtherError 7) ∧
  fst (terminal_push world_2_1) = inl RuntimeError ∧
  (∃ t, relabelled (self world_2_0)
          (additional_goal (self world_2_0) (heap world_2_0) 2%positive)
          (heap world_2_0) 1%positive = Some t ∧
        length t = 0%nat) ∧
  fst (terminal_push world_2_0) = inr tt.
Proof.
  split_and!.
  - refine (proj1 (push_errors_propagate 1%positive 0%nat 0 2%positive tt tt tt
                     None world_raising)
              [] (mkEntry 1%positive 0%nat 2%positive tt tt tt true None) []
              [10; 11; 20; 21] (OtherError 7) eq_refl (Forall_nil_2 _) _ _
              eq_refl).
    + vm_compute. reflexivity.
    + exists [20; 21; 20; 21]. vm_compute. reflexivity.
  - unfold terminal_push.
    rewrite (proj1 (proj2 (push_errors_propagate 1%positive 0%nat 0 2%positive
                             tt tt tt None world_2_1))
               (mkEntry 1%positive 0%nat 2%positive tt tt tt true None) []
               eq_refl);
      [reflexivity|cbn; lia|vm_compute; lia|vm_compute; lia].
  - assert (0 < goal_dim (self world_2_0)) as Hg by (cbn; lia).
    assert (length (heap world_2_0 !!! 1%positive)
            < Z.to_nat (goal_dim (self world_2_0)))%nat as Hs
      by (vm_compute; lia).
    destruct (proj1 (proj2 (proj2
                (push_errors_propagate 1%positive 0%nat 0 2%positive
                   tt tt tt None world_2_0)))
                (mkEntry 1%positive 0%nat 2%positive tt tt tt true None) []
                eq_refl Hg Hs) as (_ & _ & H).
    apply H. left. vm_compute. reflexivity.
  - vm_compute. reflexivity.
Defined.

(** C10, as stated, fails: with goal_dim 2 and states of three elements,
    not four, the single-element goal is repeated, the push returns and
    the relabelled record is in the store. *)
Lemma relabelling_goes_through_at_three :
  length (heap world_2_3 !!! 1%positive) = 3%nat ∧
  length (heap world_2_3 !!! 2%positive) = 3%nat ∧
  goal_dim (self world_2_3) = 2 ∧
  fst (terminal_push world_2_3) = inr tt ∧
  heap (snd (terminal_push world_2_3)) !!! 1%positive = [1; 4; 4] ∧
  length (store (self (snd (terminal_push world_2_3)))) = 2%nat.
Proof. vm_compute. split_and!; reflexivity. Qed.

(** The hypotheses of [relabelling_shape_condition] at goal_dim 2 and
    states of five elements: the push raises and only the original is in
    the store. *)
Lemma relabelling_shape_condition_witness :
  ∃ w', terminal_push world_2_5 = (inl RuntimeError, w') ∧
        length (store (self w')) = 1%nat.
Proof.
  exists (snd (terminal_push world_2_5)).
  assert (terminal_push world_2_5
          = (inl RuntimeError, snd (terminal_push world_2_5)))
    as Hp by (vm_compute; reflexivity).
  split; [exact Hp|].
  assert (∀ e l,
            e ∈ trajectory (self world_2_5) ++
                [mkEntry 1%positive 0%nat 2%positive tt tt tt true None] →
            l = en_state e ∨ l = en_next_state e →
            length (heap world_2_5 !!! l) = 5%nat) as Hn.
  { intros e l He Hl. apply list_elem_of_singleton in He. subst e.
    destruct Hl as [->| ->]; reflexivity. }
  assert (0 < goal_dim (self world_2_5)) as Hg by (cbn; lia).
  destruct (relabelling_shape_condition _ _ _ _ _ _ _ _ _ 5%nat _ _
              Hg Hn Hp) as (_ & _ & H & _).
  destruct H as (_ & _ & -> & _); [cbn; lia..|]. reflexivity.
Defined.


(** The hypothesis of [push_keeps_lengths_and_leading_parts] at a terminal
    push that returns. *)
Lemma push_keeps_lengths_and_leading_parts_witness :
  ∃ w', terminal_push world_2_4 = (inr tt, w') ∧
        length (heap w' !!! 1%positive) = 4%nat ∧
        goal_dim (self w') = 2.
Proof.
  exists (snd (terminal_push world_2_4)).
  assert (terminal_push world_2_4 = (inr tt, snd (terminal_push world_2_4)))
    as Hp by (vm_compute; reflexivity).
  destruct (push_keeps_lengths_and_leading_parts _ _ _ _ _ _ _ _ _ _ _ _ Hp)
    as (_ & Hg & _ & _ & Hl).
  split; [exact Hp|]. split; [|exact Hg].
  destruct (Hl 1%positive) as [H1 _].
  etransitivity; [exact H1|reflexivity].
Defined.

(** The hypothesis of [push_leaves_other_tensors_alone] at a terminal push
    of tensors 1 and 2: tensor 3 is as it was. *)
Lemma push_leaves_other_tensors_alone_witness :
  ∃ res w', terminal_push world_stale = (res, w') ∧
            heap w' !! 3%positive = Some [1; 2; 3].
Proof.
  exists (fst (terminal_push world_stale)), (snd (terminal_push world_stale)).
  assert (terminal_push world_stale
          = (fst (terminal_push world_stale), snd (terminal_push world_stale)))
    as Hp by (vm_compute; reflexivity).
  split; [exact Hp|].
  destruct (push_leaves_other_tensors_alone _ _ _ _ _ _ _ _ _ _ _ _ Hp)
    as [Hf _].
  rewrite Hf; [reflexivity|discriminate|discriminate|].
  intros e He. cbn in He. by apply elem_of_nil in He.
Defined.

(** The hypotheses of [terminal_push_relabels_all_pending] after a
    terminal push that raised: the next episode, of one step, relabels the
    entry left behind as well, and four records are in the store. *)
Lemma terminal_push_relabels_all_pending_witness :
  fst (terminal_push world_stale) = inl RuntimeError ∧
  length (trajectory (self (snd (terminal_push world_stale)))) = 1%nat ∧
  ∃ w', push_all ([] ++ [step_3_4]) (snd (terminal_push world_stale))
        = (inr tt, w') ∧
        length (store (self w')) = 4%nat.
Proof.
  split; [vm_compute; reflexivity|]. split; [vm_compute; reflexivity|].
  exists (snd (push_all ([] ++ [step_3_4]) (snd (terminal_push world_stale)))).
  assert (push_all ([] ++ [step_3_4]) (snd (terminal_push world_stale))
          = (inr tt,
             snd (push_all ([] ++ [step_3_4])
                    (snd (terminal_push world_stale)))))
    as Hp by (vm_compute; reflexivity).
  split; [exact Hp|].
  assert (Forall (λ c : @PushCall nat unit Z, pc_done c = false) []) as HF
    by constructor.
  destruct (terminal_push_relabels_all_pending [] step_3_4 _ _ HF eq_refl Hp)
    as [-> _].
  vm_compute. reflexivity.
Defined.

(** The hypotheses of [relabelled_episode_ends_on_its_goal] at goal_dim 2
    and states of four elements. *)
Lemma relabelled_episode_ends_on_its_goal_witness :
  ∃ w', terminal_push world_2_4 = (inr tt, w') ∧
        slice_from (heap w' !!! 2%positive) (-2) = [20; 21].
Proof.
  exists (snd (terminal_push world_2_4)).
  assert (terminal_push world_2_4 = (inr tt, snd (terminal_push world_2_4)))
    as Hp by (vm_compute; reflexivity).
  split; [exact Hp|].
  assert (0 < goal_dim (self world_2_4)) as Hg by (cbn; lia).
  destruct (relabelled_episode_ends_on_its_goal 1%positive 0%nat 0 2%positive
              tt tt tt None world_2_4 _ Hg eq_refl Hp) as [H1 H2].
  transitivity (slice_to (heap world_2_4 !!! 2%positive) (-2)).
  - etransitivity; [exact H1|exact H2].
  - vm_compute. reflexivity.
Defined.

(** The hypotheses of [done_fn_exception_propagates] at a buffer whose
    [done_fn] raises. *)
Lemma done_fn_exception_propagates_witness :
  ∃ w', terminal_push world_done_raising = (inl (OtherError 9), w') ∧
        length (store (self w')) = 1%nat.
Proof.
  exists (snd (terminal_push world_done_raising)).
  assert (terminal_push world_done_raising
          = (fst (terminal_push world_done_raising),
             snd (terminal_push world_done_raising)))
    as Hp by (vm_compute; reflexivity).
  assert (is_Some
            (relabelled (self world_done_raising)
               (additional_goal (self world_done_raising)
                  (heap world_done_raising) 2%positive)
               (heap world_done_raising) 2%positive)) as Hns
    by (exists [20; 21; 20; 21]; vm_compute; reflexivity).
  destruct (done_fn_exception_propagates 1%positive 0%nat 0 2%positive
              tt tt tt None world_done_raising []
              (mkEntry 1%positive 0%nat 2%positive tt tt tt true None) []
              [10; 11; 20; 21] (-1) (λ _ _, inl (OtherError 9)) (OtherError 9)
              _ _ eq_refl (Forall_nil_2 _) eq_refl Hns eq_refl eq_refl eq_refl Hp)
    as [Hres Hlen].
  split; [|exact Hlen].
  rewrite <-Hres. exact Hp.
Defined.

(** The hypotheses of [relabelled_records_mirror_originals] at an episode
    of two steps. *)
Lemma relabelled_records_mirror_originals_witness :
  ∃ w' rel,
    push_all ([step_1_2] ++ [step_2_1]) world_2_4 = (inr tt, w') ∧
    store (self w') =
      store (self world_2_4) ++
      (original_of (heap world_2_4) <$> [step_1_2] ++ [step_2_1]) ++ rel ∧
    length rel = 2%nat.
Proof.
  exists (snd (push_all ([step_1_2] ++ [step_2_1]) world_2_4)).
  assert (push_all ([step_1_2] ++ [step_2_1]) world_2_4
          = (inr tt, snd (push_all ([step_1_2] ++ [step_2_1]) world_2_4)))
    as Hp by (vm_compute; reflexivity).
  assert (Forall (λ c : PushCall, pc_done c = false) [step_1_2]) as HF
    by (constructor; [reflexivity|constructor]).
  destruct (relabelled_records_mirror_originals [step_1_2] step_2_1
              world_2_4 _ eq_refl HF eq_refl Hp) as (rel & Hs & Hm).
  exists rel. split; [exact Hp|]. split; [exact Hs|].
  apply Forall2_length in Hm. rewrite <-Hm. reflexivity.
Defined.

(** The hypothesis of [shared_tensors_agree_in_records] at the terminal
    push of an episode of two steps that share tensor 2. *)
Lemma shared_tensors_agree_in_records_witness :
  ∃ res w' rel,
    push_call step_2_1 (snd (push_call step_1_2 world_2_4)) = (res, w') ∧
    store (self w') =
      store (self (snd (push_call step_1_2 world_2_4))) ++
      original_of (heap world_2_4) step_2_1 :: rel.
Proof.
  exists (fst (push_call step_2_1 (snd (push_call step_1_2 world_2_4)))),
         (snd (push_call step_2_1 (snd (push_call step_1_2 world_2_4)))).
  assert (push 2%positive 1%nat (-1) 1%positive tt tt tt true None
            (snd (push_call step_1_2 world_2_4))
          = (fst (push_call step_2_1 (snd (push_call step_1_2 world_2_4))),
             snd (push_call step_2_1 (snd (push_call step_1_2 world_2_4)))))
    as Hp by (vm_compute; reflexivity).
  destruct (shared_tensors_agree_in_records _ _ _ _ _ _ _ _ _ _ _ Hp)
    as (rel & Hs & _).
  exists rel. split; [exact Hp|exact Hs].
Defined.

End HERFacts.

(** ** Proximal policy optimisation *)

Module PPOFacts.
Import PPO.

Section ppo.
Context {F : Type} `{Arith F}.
Context {State Action StateRep ActionRep Avail Mask : Type}.
Abbreviation ProximalPolicyOptimization :=
  (@ProximalPolicyOptimization F State Action StateRep ActionRep Avail Mask).
Abbreviation OnPolicyTransition :=
  (@OnPolicyTransition F State Action Avail Mask).
Abbreviation ReplayBuffer := (@ReplayBuffer F State Action Avail Mask).
Abbreviation OnPolicyTransitionBatch :=
  (@OnPolicyTransitionBatch F StateRep ActionRep Avail Mask).
Implicit Types (self : ProximalPolicyOptimization) (t : OnPolicyTransition).
Implicit Types (rb : ReplayBuffer) (ts : list OnPolicyTransition).
Implicit Types (batch : OnPolicyTransitionBatch).

(** *** The backward walk *)

(** The loop, run over batched values that were computed from the very
    transitions it visits, is the walk of the specification. *)
Lemma annotate_gae_walk self ts : ∀ i (pre_v pre_p : list F) next_value gae,
  length pre_v = i → length pre_p = i →
  annotate self i ts
    (pre_v ++ ((λ t, V self (t_state t)) <$> ts))
    (pre_p ++ ((λ t, pi self (t_state t) (t_action t)) <$> ts))
    next_value gae
  = inr (gae_walk self ts next_value gae).
Proof.
  induction ts as [|t ts IH]; intros i pre_v pre_p nv g Hv Hp; [done|].
  cbn [annotate gae_walk fmap list_fmap].
  rewrite !list_lookup_middle by done.
  rewrite (cons_middle _ pre_v), (cons_middle _ pre_p), !app_assoc.
  rewrite IH by (rewrite length_app; cbn; lia).
  done.
Qed.

Lemma gae_walk_length self ts : ∀ next_value gae,
  length (gae_walk self ts next_value gae) = length ts.
Proof. induction ts as [|t ts IH]; intros nv g; cbn; [done|]. by rewrite IH. Qed.

(** Every transition that the walk has visited carries its advantage,
    the lambda-return [gae + V(s_t)] and the probability of its action. *)
Lemma gae_walk_annotations self ts : ∀ next_value gae t',
  t' ∈ gae_walk self ts next_value gae →
  ∃ g, t_gae t' = Some g ∧
       t_lam_return t' = Some (add g (V self (t_state t'))) ∧
       t_action_probs t' = Some (pi self (t_state t') (t_action t')).
Proof.
  induction ts as [|t ts IH]; intros nv g t' Ht'; cbn in Ht'.
  - by apply elem_of_nil in Ht'.
  - apply elem_of_cons in Ht' as [->|Ht']; [|by eapply IH].
    eexists. cbn. by split_and!.
Qed.

Lemma preprocess_replay_buffer_run self rb most_recent :
  rb_type rb = OnPolicyReplayBuffer →
  last (memory rb) = Some most_recent →
  preprocess_replay_buffer self rb
  = inr (reverse (gae_walk self (reverse (memory rb))
                    (V self (t_next_state most_recent)) zero)).
Proof.
  intros Hty Hlast. unfold preprocess_replay_buffer.
  rewrite Hty, bool_decide_eq_true_2 by done. cbn [negb].
  rewrite bool_decide_eq_true_2.
  2:{ destruct (memory rb); [done|cbn; lia]. }
  cbn [negb]. rewrite Hlast. unfold get_action_prob, detach. cbn [data].
  rewrite <-!list_fmap_compose, zip_with_fmap_l, zip_with_fmap_r, zip_with_diag.
  pose proof (annotate_gae_walk self (reverse (memory rb)) 0 [] []
                (V self (t_next_state most_recent)) zero eq_refl eq_refl) as Ha.
  cbn [app] in Ha.
  exact (f_equal (λ r, r ≫= (λ annotated, inr (reverse annotated))) Ha).
Qed.

Lemma preprocess_replay_buffer_returns self rb :
  rb_type rb = OnPolicyReplayBuffer → memory rb ≠ [] →
  ∃ annotated, preprocess_replay_buffer self rb = inr annotated.
Proof.
  intros Hty Hne.
  destruct (last (memory rb)) as [most_recent|] eqn:Hlast.
  - eexists. by apply preprocess_replay_buffer_run.
  - by apply last_None in Hlast.
Qed.

(** C2.  For a non-empty on-policy buffer [preprocess_replay_buffer]
    returns, and what it leaves in the memory is the walk of the
    specification over the transitions, most recent first: the advantage
    starts at 0 and [next_value] at [V] of the next state of the most
    recent transition; each transition gets
    [td_error = reward + gamma * next_value * (1 - done) - V(s_t)],
    [gae = td_error + gamma * lambda * (1 - done) * gae_prev], the
    lambda-return [gae + V(s_t)] and the probability of its action under
    the current policy, and [V(s_t)] is the [next_value] of the transition
    before it.  This holds for every interpretation of the arithmetic. *)
Theorem preprocess_replay_buffer_walks_backward self rb :
  rb_type rb = OnPolicyReplayBuffer →
  memory rb ≠ [] →
  ∃ most_recent annotated,
    last (memory rb) = Some most_recent ∧
    preprocess_replay_buffer self rb = inr annotated ∧
    annotated
    = reverse (gae_walk self (reverse (memory rb))
                 (V self (t_next_state most_recent)) zero) ∧
    length annotated = length (memory rb) ∧
    ∀ t', t' ∈ annotated →
      ∃ g, t_gae t' = Some g ∧
           t_lam_return t' = Some (add g (V self (t_state t'))) ∧
           t_action_probs t' = Some (pi self (t_state t') (t_action t')).
Proof.
  intros Hty Hne.
  destruct (last (memory rb)) as [most_recent|] eqn:Hlast.
  2:{ apply last_None in Hlast. done. }
  exists most_recent. eexists. split; [done|].
  split; [by apply preprocess_replay_buffer_run|]. split; [done|]. split.
  - by rewrite length_reverse, gae_walk_length, length_reverse.
  - intros t' Ht'. rewrite elem_of_reverse in Ht'.
    by eapply gae_walk_annotations.
Qed.

(** C9.  [preprocess_replay_buffer] raises an [AssertionError] when the
    buffer is not exactly an [OnPolicyReplayBuffer] and when its memory is
    empty; it returns only when neither is the case, and then it does. *)
Theorem preprocess_replay_buffer_preconditions self rb :
  (rb_type rb ≠ OnPolicyReplayBuffer ∨ memory rb = [] →
   preprocess_replay_buffer self rb = inl AssertionError) ∧
  (∀ annotated,
     preprocess_replay_buffer self rb = inr annotated →
     rb_type rb = OnPolicyReplayBuffer ∧ memory rb ≠ []) ∧
  (rb_type rb = OnPolicyReplayBuffer → memory rb ≠ [] →
   ∃ annotated, preprocess_replay_buffer self rb = inr annotated).
Proof.
  assert (rb_type rb ≠ OnPolicyReplayBuffer ∨ memory rb = [] →
          preprocess_replay_buffer self rb = inl AssertionError) as Hfail.
  { intros Hor. unfold preprocess_replay_buffer.
    destruct (decide (rb_type rb = OnPolicyReplayBuffer)) as [Hty|Hty].
    - rewrite bool_decide_eq_true_2 by done. cbn [negb].
      destruct Hor as [?| ->]; [done|].
      by rewrite bool_decide_eq_false_2 by (cbn; lia).
    - by rewrite bool_decide_eq_false_2. }
  split; [done|]. split.
  - intros annotated Hrun.
    destruct (decide (rb_type rb = OnPolicyReplayBuffer)) as [Hty|Hty].
    + split; [done|]. intros Hnil. rewrite Hfail in Hrun by auto. done.
    + rewrite Hfail in Hrun by auto. done.
  - intros Hty Hne.
    destruct (preprocess_replay_buffer_returns self rb Hty Hne)
      as [annotated Hrun]. by exists annotated.
Qed.

(** *** What preprocessing reads and what it keeps *)

Lemma preprocess_replay_buffer_fails self rb :
  rb_type rb ≠ OnPolicyReplayBuffer ∨ memory rb = [] →
  preprocess_replay_buffer self rb = inl AssertionError.
Proof.
  intros Hor. unfold preprocess_replay_buffer.
  destruct (decide (rb_type rb = OnPolicyReplayBuffer)) as [Hty|Hty].
  - rewrite bool_decide_eq_true_2 by done. cbn [negb].
    destruct Hor as [?| ->]; [done|].
    by rewrite bool_decide_eq_false_2 by (cbn; lia).
  - by rewrite bool_decide_eq_false_2.
Qed.

Lemma preprocess_replay_buffer_inv self rb annotated :
  preprocess_replay_buffer self rb = inr annotated →
  rb_type rb = OnPolicyReplayBuffer ∧
  ∃ most_recent,
    last (memory rb) = Some most_recent ∧
    annotated
    = reverse (gae_walk self (reverse (memory rb))
                 (V self (t_next_state most_recent)) zero).
Proof.
  intros Hrun.
  destruct (decide (rb_type rb = OnPolicyReplayBuffer)) as [Hty|Hty].
  2:{ rewrite preprocess_replay_buffer_fails in Hrun by auto. done. }
  split; [done|].
  destruct (last (memory rb)) as [most_recent|] eqn:Hlast.
  - exists most_recent. split; [done|].
    rewrite (preprocess_replay_buffer_run self rb most_recent) in Hrun by done.
    by injection Hrun.
  - apply last_None in Hlast.
    rewrite preprocess_replay_buffer_fails in Hrun by auto. done.
Qed.

Lemma gae_walk_erase self ts : ∀ next_value gae,
  erase <$> gae_walk self ts next_value gae = erase <$> ts.
Proof.
  induction ts as [|t ts IH]; intros nv g; [done|].
  cbn [gae_walk fmap list_fmap]. f_equal. apply IH.
Qed.

(** The walk reads a transition only through what [erase] keeps. *)
Lemma gae_walk_of_erased self ts : ∀ ts' next_value gae,
  erase <$> ts' = erase <$> ts →
  gae_walk self ts' next_value gae = gae_walk self ts next_value gae.
Proof.
  induction ts as [|t ts IH]; intros [|t' ts'] nv g Heq; try done.
  cbn [fmap list_fmap] in Heq. injection Heq as H1 H2 H3 H4 H5 H6 H7 Hts.
  cbn [gae_walk]. unfold not_done. rewrite H1, H2, H3, H4, H5, H6, H7.
  f_equal. by apply IH.
Qed.

Lemma gae_walk_app self ts1 : ∀ ts2 next_value gae,
  ∃ next_value' gae',
    gae_walk self (ts1 ++ ts2) next_value gae
    = gae_walk self ts1 next_value gae ++ gae_walk self ts2 next_value' gae'.
Proof.
  induction ts1 as [|t ts1 IH]; intros ts2 nv g.
  - by exists nv, g.
  - cbn [app gae_walk].
    edestruct IH as (nv' & g' & ->). by exists nv', g'.
Qed.

Lemma preprocess_replay_buffer_erased self rb rb' :
  rb_type rb' = rb_type rb →
  erase <$> memory rb' = erase <$> memory rb →
  preprocess_replay_buffer self rb' = preprocess_replay_buffer self rb.
Proof.
  intros Hty Hmem.
  destruct (decide (rb_type rb = OnPolicyReplayBuffer)) as [Hon|Hoff].
  2:{ rewrite !preprocess_replay_buffer_fails; [done|left..]; congruence. }
  destruct (last (memory rb)) as [mr|] eqn:Hlast.
  2:{ apply last_None in Hlast. rewrite Hlast in Hmem.
      apply fmap_nil_inv in Hmem.
      rewrite !preprocess_replay_buffer_fails; auto. }
  assert (erase <$> last (memory rb') = Some (erase mr)) as Hlast'.
  { by rewrite <-fmap_last, Hmem, fmap_last, Hlast. }
  destruct (last (memory rb')) as [mr'|] eqn:Hl'; [|done].
  injection Hlast' as _ _ _ Hns _ _ _.
  rewrite (preprocess_replay_buffer_run self rb mr) by done.
  rewrite (preprocess_replay_buffer_run self rb' mr') by congruence.
  rewrite Hns.
  do 2 f_equal. apply gae_walk_of_erased.
  by rewrite !fmap_reverse, Hmem.
Qed.

(** X9.  Preprocessing annotates and does nothing else: the memory keeps
    its transitions, in their order, each with its state, action, reward,
    next state, action masks and done flag. *)
Theorem preprocess_replay_buffer_keeps_transitions self rb annotated :
  preprocess_replay_buffer self rb = inr annotated →
  erase <$> annotated = erase <$> memory rb.
Proof.
  intros (_ & mr & _ & ->)%preprocess_replay_buffer_inv.
  by rewrite fmap_reverse, gae_walk_erase, <-fmap_reverse, reverse_involutive.
Qed.

(** X10.  Annotations already in the buffer are never read: two buffers
    of one type whose transitions differ in their annotations only are
    preprocessed to the same result.  What a pass finds is overwritten. *)
Theorem preprocess_replay_buffer_ignores_annotations self rb rb' :
  rb_type rb' = rb_type rb →
  erase <$> memory rb' = erase <$> memory rb →
  preprocess_replay_buffer self rb' = preprocess_replay_buffer self rb.
Proof. apply preprocess_replay_buffer_erased. Qed.

(** X11.  Preprocessing a buffer a second time, with the same critic and
    policy, changes nothing. *)
Theorem preprocess_replay_buffer_twice self rb annotated :
  preprocess_replay_buffer self rb = inr annotated →
  preprocess_replay_buffer self (mkReplayBuffer (rb_type rb) annotated)
  = inr annotated.
Proof.
  intros Hrun. rewrite <-Hrun. apply preprocess_replay_buffer_erased; [done|].
  cbn [memory].
  apply preprocess_replay_buffer_inv in Hrun as (_ & mr & _ & ->).
  by rewrite fmap_reverse, gae_walk_erase, <-fmap_reverse, reverse_involutive.
Qed.

(** X12.  The annotations of a transition depend on the transitions after
    it only: whatever older transitions the buffer holds in front, the
    newer ones are annotated as they are without them. *)
Theorem annotations_depend_on_the_future_only self rb older newer annotated :
  memory rb = older ++ newer →
  newer ≠ [] →
  preprocess_replay_buffer self rb = inr annotated →
  preprocess_replay_buffer self (mkReplayBuffer (rb_type rb) newer)
  = inr (drop (length older) annotated).
Proof.
  intros Hmem Hne (Hty & mr & Hlast & ->)%preprocess_replay_buffer_inv.
  assert (last newer = Some mr) as Hlast'.
  { rewrite Hmem, last_app in Hlast. destruct (last newer) as [x|] eqn:Hl.
    - done.
    - by apply last_None in Hl. }
  rewrite (preprocess_replay_buffer_run self _ mr) by done. cbn [memory].
  f_equal. rewrite Hmem, reverse_app.
  destruct (gae_walk_app self (reverse newer) (reverse older)
              (V self (t_next_state mr)) zero) as (nv' & g' & ->).
  rewrite reverse_app, drop_app_length'; [done|].
  by rewrite length_reverse, gae_walk_length, length_reverse.
Qed.

(** X13.  [learn] preprocesses before anything else: on a buffer of
    another type or an empty one it raises [AssertionError] whatever the
    base class would do; otherwise the base class learns from the
    annotated buffer, and annotations that were in the buffer before the
    call have no influence on the result. *)
Theorem learn_preprocesses_first {Report : Type} self
    (super_learn : ReplayBuffer → exception + Report) rb :
  (rb_type rb ≠ OnPolicyReplayBuffer ∨ memory rb = [] →
   learn self super_learn rb = inl AssertionError) ∧
  (∀ annotated,
     preprocess_replay_buffer self rb = inr annotated →
     learn self super_learn rb
     = super_learn (mkReplayBuffer (rb_type rb) annotated)) ∧
  (∀ rb',
     rb_type rb' = rb_type rb →
     erase <$> memory rb' = erase <$> memory rb →
     learn self super_learn rb' = learn self super_learn rb).
Proof.
  split_and!.
  - intros Hor. unfold learn.
    by rewrite preprocess_replay_buffer_fails.
  - intros annotated Hrun. unfold learn. by rewrite Hrun.
  - intros rb' Hty Hmem. unfold learn.
    by rewrite (preprocess_replay_buffer_erased self rb rb'), Hty.
Qed.

(** *** The actor loss *)

Context (categorical_entropy : list F → F).

Lemma elementwise_same_length self (op : F → F → F) (a b : tagged (list F)) :
  length (data a) = length (data b) →
  elementwise op a b
  = inr (mkTagged (zip_with op (data a) (data b))
           (requires_grad a || requires_grad b)).
Proof. intros Hl. unfold elementwise. by rewrite decide_True. Qed.


(** An elementwise operation returns exactly on broadcastable tensors. *)
Lemma elementwise_returns (op : F → F → F) (a b : tagged (list F)) :
  broadcastable (data a) (data b) → ∃ r, elementwise op a b = inr r.
Proof.
  intros Hb. unfold elementwise, broadcastable in *.
  case_decide as Hl; [by eexists|].
  destruct Hb as [?|[Ha|Hb]]; [done| |].
  - destruct (data a) as [|x [|x' xs]]; simplify_eq/=. by eexists.
  - destruct (data b) as [|y [|y' ys]]; simplify_eq/=.
    destruct (data a) as [|x [|x' xs]]; by eexists.
Qed.

Lemma elementwise_fails (op : F → F → F) (a b : tagged (list F)) :
  ¬ broadcastable (data a) (data b) → elementwise op a b = inl RuntimeError.
Proof.
  intros Hb. unfold elementwise, broadcastable in *.
  case_decide as Hl; [by destruct Hb; left|].
  destruct (data a) as [|x [|x' xs]], (data b) as [|y [|y' ys]];
    try done; destruct Hb; cbn; auto.
Qed.

(** X14.  What [_actor_loss] raises, and in which order it looks: a batch
    that is not an [OnPolicyTransitionBatch] and a batch without stored
    probabilities give [AssertionError], whatever else is wrong; stored
    probabilities that cannot be broadcast against the current ones give
    torch's [RuntimeError], also when the advantages are missing; missing
    advantages give [TypeError] only after that.  A loss is returned only
    for a batch that has both and whose probabilities are broadcastable. *)
Theorem actor_loss_errors self batch :
  _actor_loss categorical_entropy self OtherTransitionBatch
  = inl AssertionError ∧
  (b_action_probs batch = None →
   _actor_loss categorical_entropy self (OnPolicy batch)
   = inl AssertionError) ∧
  (∀ action_probs_old,
     b_action_probs batch = Some action_probs_old →
     ¬ broadcastable
         (data (get_action_prob self (b_state batch) (b_action batch)
                  (Some (b_curr_available_actions batch))
                  (Some (b_curr_unavailable_actions_mask batch))))
         (data action_probs_old) →
     _actor_loss categorical_entropy self (OnPolicy batch)
     = inl RuntimeError) ∧
  (∀ action_probs_old,
     b_action_probs batch = Some action_probs_old →
     broadcastable
       (data (get_action_prob self (b_state batch) (b_action batch)
                (Some (b_curr_available_actions batch))
                (Some (b_curr_unavailable_actions_mask batch))))
       (data action_probs_old) →
     b_gae batch = None →
     _actor_loss categorical_entropy self (OnPolicy batch) = inl TypeError) ∧
  (∀ loss,
     _actor_loss categorical_entropy self (OnPolicy batch) = inr loss →
     ∃ action_probs_old gae,
       b_action_probs batch = Some action_probs_old ∧
       b_gae batch = Some gae ∧
       broadcastable
         (data (get_action_prob self (b_state batch) (b_action batch)
                  (Some (b_curr_available_actions batch))
                  (Some (b_curr_unavailable_actions_mask batch))))
         (data action_probs_old)).
Proof.
  split_and!.
  - done.
  - intros Hold. unfold _actor_loss. by rewrite Hold.
  - intros old Hold Hb. unfold _actor_loss.
    by rewrite Hold, (elementwise_fails _ _ _ Hb).
  - intros old Hold Hb Hgae. unfold _actor_loss. rewrite Hold.
    destruct (elementwise_returns div _ _ Hb) as [r ->]. cbn.
    by rewrite Hgae.
  - intros loss. unfold _actor_loss.
    destruct (b_action_probs batch) as [old|]; [|done].
    destruct (decide (broadcastable
                (data (get_action_prob self (b_state batch) (b_action batch)
                         (Some (b_curr_available_actions batch))
                         (Some (b_curr_unavailable_actions_mask batch))))
                (data old))) as [Hb|Hb].
    2:{ by rewrite (elementwise_fails _ _ _ Hb). }
    destruct (b_gae batch) as [gae|].
    + intros _. by exists old, gae.
    + destruct (elementwise_returns div _ _ Hb) as [r ->]. done.
Qed.

End ppo.

(** *** The clipped surrogate over the rationals *)

Section exact.
Context {State Action StateRep ActionRep Avail Mask : Type}.
Local Open Scope Qc_scope.

(** Over the rationals the factor of a transition is [1 - done]. *)
Lemma not_done_exact
    (t : @OnPolicyTransition Qc State Action Avail Mask) :
  not_done t = 1 - of_bool (t_done t).
Proof. unfold not_done, of_bool. destruct (t_done t); cbn; ring. Qed.

Lemma Qc_min_clip_one r : clip r 1 1 = 1.
Proof.
  unfold clip, Qc_max, Qc_min.
  destruct (Qle_bool r 1%Qc) eqn:E.
  - by destruct (Qle_bool _ _).
  - by rewrite ?E.
Qed.

Lemma foldl_neg_total (l : list Qc) : ∀ acc,
  foldl Qcplus acc (Qcopp <$> l) = acc - total l.
Proof.
  induction l as [|x l IH]; intros acc; cbn.
  - ring.
  - rewrite IH. ring.
Qed.

Lemma zip_with_surrogate eps (r : list Qc) : ∀ gae : list Qc,
  zip_with Qc_min (zip_with Qcmult r gae)
    (zip_with Qcmult ((λ x, Qc_min (Qc_max x (1 - eps)) (1 + eps)) <$> r) gae)
  = zip_with (surrogate eps) r gae.
Proof.
  induction r as [|x r IH]; intros [|g gae]; cbn; try done.
  by rewrite IH.
Qed.

(** C4.  For a batch whose tensors have one element for each row and
    whose stored probabilities are not zero (division by zero is not
    modelled), the actor loss is
    [- sum min(r * gae, clip(r, 1 - eps, 1 + eps) * gae)] minus the
    entropy bonus, with [r] the probability under the current policy
    divided by the stored one.  At ratio 2, advantage 1 and clip
    range 1/5 the unclipped term is 2, the clipped term 6/5, and the sample
    contributes 6/5.  At clip range 0 the clip is 1 and the clipped term is
    the advantage itself. *)
Theorem actor_loss_is_clipped_surrogate
    (categorical_entropy : list Qc → Qc)
    (self : @ProximalPolicyOptimization Qc State Action StateRep ActionRep
              Avail Mask)
    (batch : @OnPolicyTransitionBatch Qc StateRep ActionRep Avail Mask)
    (action_probs_old gae : tagged (list Qc)) :
  b_action_probs batch = Some action_probs_old →
  b_gae batch = Some gae →
  length (b_action batch) = length (b_state batch) →
  length (data action_probs_old) = length (b_state batch) →
  length (data gae) = length (b_state batch) →
  Forall (λ p, p ≠ 0) (data action_probs_old) →
  (∃ loss,
     _actor_loss categorical_entropy self (OnPolicy batch) = inr loss ∧
     data loss
     = - total
           (zip_with (surrogate (epsilon self))
              (zip_with Qcdiv
                 (data (get_action_prob self (b_state batch) (b_action batch)
                          (Some (b_curr_available_actions batch))
                          (Some (b_curr_unavailable_actions_mask batch))))
                 (data action_probs_old))
              (data gae))
       - entropy_bonus_scaling self
         * categorical_entropy
             (data (get_action_prob self (b_state batch) (b_action batch)
                      (Some (b_curr_available_actions batch))
                      (Some (b_curr_unavailable_actions_mask batch))))) ∧
  (Q2Qc 2 * 1 = Q2Qc 2 ∧
   clip (Q2Qc 2) (1 - Q2Qc (1 # 5)) (1 + Q2Qc (1 # 5)) * 1 = Q2Qc (6 # 5) ∧
   surrogate (Q2Qc (1 # 5)) (Q2Qc 2) 1 = Q2Qc (6 # 5)) ∧
  (∀ r g, clip r (1 - 0) (1 + 0) = 1 ∧
          clip r (1 - 0) (1 + 0) * g = g ∧
          surrogate 0 r g = Qc_min (r * g) g).
Proof.
  intros Hold Hgae Ha Ho Hg _. split_and!.
  - unfold _actor_loss. rewrite Hold, Hgae.
    set (probs := get_action_prob self _ _ _ _).
    assert (length (data probs) = length (b_state batch)) as Hp.
    { unfold probs, get_action_prob. cbn. rewrite length_zip_with. lia. }
    rewrite (elementwise_same_length self) by congruence.
    cbn [mbind except_bind].
    do 3 (rewrite (elementwise_same_length self)
            by (cbn [data clamp];
                repeat rewrite ?length_zip_with, ?length_fmap; lia);
          cbn [mbind except_bind]).
    eexists. split; [done|].
    cbn [data clamp tsum entropy_bonus entropy_input detach].
    change (@foldl Qc Qc add zero) with (foldl Qcplus 0).
    change (@fmap list _ Qc Qc neg) with (@fmap list _ Qc Qc Qcopp).
    rewrite foldl_neg_total.
    change (zip_with fmin) with (zip_with Qc_min).
    change (zip_with mul) with (zip_with Qcmult).
    change (zip_with div) with (zip_with Qcdiv).
    change (λ x, fmin (fmax x (sub one (epsilon self))) (add one (epsilon self)))
      with (λ x, Qc_min (Qc_max x (1 - epsilon self)) (1 + epsilon self)).
    rewrite zip_with_surrogate.
    change (sub ?a ?b) with (a - b). change (mul ?a ?b) with (a * b).
    ring.
  - by apply Qc_is_canon.
  - by apply Qc_is_canon.
  - by apply Qc_is_canon.
  - intros r g.
    assert (1 - 0 = 1) as -> by ring. assert (1 + 0 = 1) as -> by ring.
    unfold surrogate.
    assert (1 - 0 = 1) as -> by ring. assert (1 + 0 = 1) as -> by ring.
    rewrite Qc_min_clip_one. split_and!; [done|ring|].
    by assert (1 * g = g) as -> by ring.
Qed.

(** *** Returns over the rationals *)

Implicit Types
  (self : @ProximalPolicyOptimization Qc State Action StateRep ActionRep
            Avail Mask)
  (rb : @ReplayBuffer Qc State Action Avail Mask)
  (ts : list (@OnPolicyTransition Qc State Action Avail Mask)).

Ltac qc_ops :=
  change (@add Qc Qc_arith) with Qcplus in *;
  change (@sub Qc Qc_arith) with Qcminus in *;
  change (@mul Qc Qc_arith) with Qcmult in *;
  change (@zero Qc Qc_arith) with 0 in *;
  change (@one Qc Qc_arith) with 1 in *.

Lemma lambda_return_step (gamma lambda r nd nv v g : Qc) :
  r + gamma * nd * ((1 - lambda) * nv + lambda * (g + nv))
  = r + gamma * nv * nd - v + gamma * lambda * nd * g + v.
Proof. ring. Qed.

Lemma gae_walk_lambda_returns self ts : ∀ next_value gae,
  t_lam_return <$> gae_walk self ts next_value gae
  = Some <$> lambda_returns self ts next_value (gae + next_value).
Proof.
  induction ts as [|t ts IH]; intros nv g; [done|].
  cbn [gae_walk lambda_returns fmap list_fmap t_lam_return]. qc_ops.
  rewrite (lambda_return_step _ _ _ _ _ (V self (t_state t))).
  f_equal. apply IH.
Qed.

(** X15.  The [lam_return] that preprocessing stores is the lambda-return
    of the docstring: going back from the most recent transition,
    [G_t = r_t + gamma (1 - done_t) ((1 - lambda) V(s_t+1) + lambda G_t+1)],
    where for the most recent transition both [V(s_t+1)] and [G_t+1] are
    the value of its next state. *)
Theorem lam_return_is_the_lambda_return self rb annotated most_recent :
  preprocess_replay_buffer self rb = inr annotated →
  last (memory rb) = Some most_recent →
  t_lam_return <$> annotated
  = Some <$> reverse
      (lambda_returns self (reverse (memory rb))
         (V self (t_next_state most_recent))
         (V self (t_next_state most_recent))).
Proof.
  intros (_ & mr & Hlast & ->)%preprocess_replay_buffer_inv Hmr.
  assert (mr = most_recent) as -> by congruence.
  rewrite !fmap_reverse, gae_walk_lambda_returns. qc_ops.
  by assert (0 + V self (t_next_state most_recent)
             = V self (t_next_state most_recent)) as -> by ring.
Qed.

Lemma terminal_gae (gamma lambda r nv v g : Qc) :
  r + gamma * nv * 0 - v + gamma * lambda * 0 * g = r - v.
Proof. ring. Qed.

(** At a terminal transition the walk starts afresh. *)
Lemma gae_walk_terminal self t ts next_value gae :
  t_done t = true →
  gae_walk self (t :: ts) next_value gae
  = mkOnPolicyTransition (t_state t) (t_action t) (t_reward t)
      (t_next_state t) (t_curr_available_actions t)
      (t_curr_unavailable_actions_mask t) true
      (Some (t_reward t - V self (t_state t))) (Some (t_reward t))
      (Some (pi self (t_state t) (t_action t)))
    :: gae_walk self ts (V self (t_state t)) (t_reward t - V self (t_state t)).
Proof.
  intros Hd. cbn [gae_walk]. unfold not_done. rewrite Hd.
  cbn [negb of_bool]. qc_ops. rewrite terminal_gae.
  by assert (t_reward t - V self (t_state t) + V self (t_state t) = t_reward t)
    as -> by ring.
Qed.

(** X16.  Nothing crosses the end of an episode.  A terminal transition
    gets the advantage [reward - V(s)] and the lambda-return [reward], and
    it and all transitions before it are annotated in the same way
    whatever comes after it in the buffer. *)
Theorem terminal_transition_cuts_the_walk
    self rb rb' before term after after' annotated annotated' :
  memory rb = before ++ term :: after →
  memory rb' = before ++ term :: after' →
  t_done term = true →
  preprocess_replay_buffer self rb = inr annotated →
  preprocess_replay_buffer self rb' = inr annotated' →
  take (S (length before)) annotated = take (S (length before)) annotated' ∧
  ∃ t', annotated !! length before = Some t' ∧
        erase t' = erase term ∧
        t_gae t' = Some (t_reward term - V self (t_state term)) ∧
        t_lam_return t' = Some (t_reward term).
Proof.
  intros Hmem Hmem' Hd (_ & mr & _ & ->)%preprocess_replay_buffer_inv
    (_ & mr' & _ & ->)%preprocess_replay_buffer_inv.
  assert (∀ aft nv g,
            ∃ W, length W = length aft ∧
              reverse (gae_walk self (reverse (before ++ term :: aft)) nv g)
              = reverse (gae_walk self (term :: reverse before) 0 0) ++ W)
    as Hcut.
  { intros aft nv g.
    rewrite reverse_app, reverse_cons, <-app_assoc. cbn [app].
    destruct (gae_walk_app self (reverse aft) (term :: reverse before) nv g)
      as (nv1 & g1 & ->).
    rewrite reverse_app, (gae_walk_terminal self term _ nv1 g1 Hd),
      <-(gae_walk_terminal self term _ 0 0 Hd).
    eexists. split; [|done].
    by rewrite length_reverse, gae_walk_length, length_reverse. }
  rewrite Hmem, Hmem'.
  destruct (Hcut after (V self (t_next_state mr)) zero) as (W & _ & ->).
  destruct (Hcut after' (V self (t_next_state mr')) zero) as (W' & _ & ->).
  assert (length (reverse (gae_walk self (term :: reverse before) 0 0))
          = S (length before)) as Hlen.
  { by rewrite length_reverse, gae_walk_length; cbn; rewrite length_reverse. }
  split.
  { by rewrite !take_app_length'. }
  rewrite (gae_walk_terminal self term _ 0 0 Hd), reverse_cons.
  eexists. split.
  { rewrite <-app_assoc. apply list_lookup_middle.
    by rewrite length_reverse, gae_walk_length, length_reverse. }
  cbn. split_and!; try done. unfold erase. by rewrite Hd.
Qed.

(** *** Bounds on the clipped surrogate *)

Lemma Qc_min_le_l (a b : Qc) : Qc_min a b <= a.
Proof.
  unfold Qc_min. destruct (Qle_bool a b) eqn:E; [apply Qcle_refl|].
  apply Qclt_le_weak, Qcnot_le_lt. intros Hle.
  apply (proj2 (Qle_bool_iff a b)) in Hle. congruence.
Qed.

Lemma Qc_min_le_r (a b : Qc) : Qc_min a b <= b.
Proof.
  unfold Qc_min. destruct (Qle_bool a b) eqn:E; [|apply Qcle_refl].
  by apply (proj1 (Qle_bool_iff a b)).
Qed.

Lemma Qc_min_ge (a b c : Qc) : c <= a → c <= b → c <= Qc_min a b.
Proof. intros. unfold Qc_min. by destruct (Qle_bool a b). Qed.

Lemma Qc_max_ge_r (a b : Qc) : b <= Qc_max a b.
Proof.
  unfold Qc_max. destruct (Qle_bool a b) eqn:E; [apply Qcle_refl|].
  apply Qclt_le_weak, Qcnot_le_lt. intros Hle.
  apply (proj2 (Qle_bool_iff a b)) in Hle. congruence.
Qed.

Lemma clip_le_hi (r lo hi : Qc) : clip r lo hi <= hi.
Proof. apply Qc_min_le_r. Qed.

Lemma clip_ge_lo (r lo hi : Qc) : lo <= hi → lo <= clip r lo hi.
Proof. intros. apply Qc_min_ge; [apply Qc_max_ge_r|done]. Qed.


Lemma Qcmult_le_compat_nonpos (x y z : Qc) : x <= y → z <= 0 → y * z <= x * z.
Proof.
  intros Hxy Hz.
  assert (0 <= - z) as Hz'.
  { apply Qcopp_le_compat in Hz. by assert (- 0 = 0) as <- by ring. }
  pose proof (Qcopp_le_compat _ _ (Qcmult_le_compat_r x y (- z) Hxy Hz')) as H.
  assert (- (y * - z) = y * z) as <- by ring.
  by assert (- (x * - z) = x * z) as <- by ring.
Qed.

Lemma Qcle_0_eps (eps : Qc) : 0 <= eps → 1 - eps <= 1 ∧ 1 <= 1 + eps.
Proof.
  intros He. split.
  - apply Qcle_minus_iff. by assert (1 + - (1 - eps) = eps) as -> by ring.
  - apply Qcle_minus_iff. by assert (1 + eps + - 1 = eps) as -> by ring.
Qed.

(** One sample: never more than the unclipped term, and never more than
    the advantage times the clip bound on its side. *)
Lemma surrogate_le_unclipped (eps r g : Qc) : surrogate eps r g <= r * g.
Proof. apply Qc_min_le_l. Qed.

Lemma surrogate_le_upper (eps r g : Qc) :
  0 <= g → surrogate eps r g <= (1 + eps) * g.
Proof.
  intros Hg. eapply Qcle_trans; [apply Qc_min_le_r|].
  apply Qcmult_le_compat_r; [apply clip_le_hi|done].
Qed.

Lemma surrogate_le_lower (eps r g : Qc) :
  0 <= eps → g <= 0 → surrogate eps r g <= (1 - eps) * g.
Proof.
  intros He Hg. eapply Qcle_trans; [apply Qc_min_le_r|].
  apply Qcmult_le_compat_nonpos; [|done]. apply clip_ge_lo.
  destruct (Qcle_0_eps eps He). by eapply Qcle_trans.
Qed.


Lemma total_zip_with_le (f h : Qc → Qc → Qc) (r : list Qc) : ∀ gae : list Qc,
  (∀ x g, g ∈ gae → f x g <= h x g) →
  total (zip_with f r gae) <= total (zip_with h r gae).
Proof.
  induction r as [|x r IH]; intros [|g gae] Hle; cbn; try apply Qcle_refl.
  apply Qcplus_le_compat.
  - apply Hle. left.
  - apply IH. intros ???. apply Hle. by right.
Qed.

Lemma total_zip_with_scale (k : Qc) (r : list Qc) : ∀ gae : list Qc,
  length r = length gae →
  total (zip_with (λ _ g, k * g) r gae) = k * total gae.
Proof.
  induction r as [|x r IH]; intros [|g gae] Hl; cbn; try done; [ring|].
  rewrite IH by (cbn in Hl; lia). ring.
Qed.


(** The value of the actor loss on a batch with one element per row. *)
Lemma actor_loss_run
    (categorical_entropy : list Qc → Qc) self
    (batch : @OnPolicyTransitionBatch Qc StateRep ActionRep Avail Mask)
    (action_probs_old gae : tagged (list Qc)) :
  b_action_probs batch = Some action_probs_old →
  b_gae batch = Some gae →
  length (b_action batch) = length (b_state batch) →
  length (data action_probs_old) = length (b_state batch) →
  length (data gae) = length (b_state batch) →
  ∃ loss,
    _actor_loss categorical_entropy self (OnPolicy batch) = inr loss ∧
    data loss
    = - total
          (zip_with (surrogate (epsilon self))
             (zip_with Qcdiv
                (data (get_action_prob self (b_state batch) (b_action batch)
                         (Some (b_curr_available_actions batch))
                         (Some (b_curr_unavailable_actions_mask batch))))
                (data action_probs_old))
             (data gae))
      - entropy_bonus_scaling self
        * categorical_entropy
            (data (get_action_prob self (b_state batch) (b_action batch)
                     (Some (b_curr_available_actions batch))
                     (Some (b_curr_unavailable_actions_mask batch)))).
Proof.
  intros Hold Hgae Ha Ho Hg.
  unfold _actor_loss. rewrite Hold, Hgae.
  set (probs := get_action_prob self _ _ _ _).
  assert (length (data probs) = length (b_state batch)) as Hp.
  { unfold probs, get_action_prob. cbn. rewrite length_zip_with. lia. }
  rewrite (elementwise_same_length self) by congruence.
  cbn [mbind except_bind].
  do 3 (rewrite (elementwise_same_length self)
          by (cbn [data clamp];
              repeat rewrite ?length_zip_with, ?length_fmap; lia);
        cbn [mbind except_bind]).
  eexists. split; [done|].
  cbn [data clamp tsum entropy_bonus entropy_input detach].
  change (@foldl Qc Qc add zero) with (foldl Qcplus 0).
  change (@fmap list _ Qc Qc neg) with (@fmap list _ Qc Qc Qcopp).
  rewrite foldl_neg_total.
  change (zip_with fmin) with (zip_with Qc_min).
  change (zip_with mul) with (zip_with Qcmult).
  change (zip_with div) with (zip_with Qcdiv).
  change (λ x, fmin (fmax x (sub one (epsilon self))) (add one (epsilon self)))
    with (λ x, Qc_min (Qc_max x (1 - epsilon self)) (1 + epsilon self)).
  rewrite zip_with_surrogate.
  change (sub ?a ?b) with (a - b). change (mul ?a ?b) with (a * b).
  ring.
Qed.

Lemma Qcle_minus_compat (a b c : Qc) : a <= b → - b - c <= - a - c.
Proof.
  intros H. unfold Qcminus. apply Qcplus_le_compat; [|apply Qcle_refl].
  by apply Qcopp_le_compat.
Qed.

(** X17.  The clipped loss is the pessimistic one: on a batch with one
    element per row and stored probabilities that are not zero (division
    by zero is not modelled) it is never below the loss without clipping,
    [- sum r * gae] minus the entropy bonus. *)
Theorem actor_loss_is_pessimistic
    (categorical_entropy : list Qc → Qc) self
    (batch : @OnPolicyTransitionBatch Qc StateRep ActionRep Avail Mask)
    (action_probs_old gae : tagged (list Qc)) :
  b_action_probs batch = Some action_probs_old →
  b_gae batch = Some gae →
  length (b_action batch) = length (b_state batch) →
  length (data action_probs_old) = length (b_state batch) →
  length (data gae) = length (b_state batch) →
  Forall (λ p, p ≠ 0) (data action_probs_old) →
  ∃ loss,
    _actor_loss categorical_entropy self (OnPolicy batch) = inr loss ∧
    - total
        (zip_with Qcmult
           (zip_with Qcdiv
              (data (get_action_prob self (b_state batch) (b_action batch)
                       (Some (b_curr_available_actions batch))
                       (Some (b_curr_unavailable_actions_mask batch))))
              (data action_probs_old))
           (data gae))
    - entropy_bonus_scaling self
      * categorical_entropy
          (data (get_action_prob self (b_state batch) (b_action batch)
                   (Some (b_curr_available_actions batch))
                   (Some (b_curr_unavailable_actions_mask batch))))
    <= data loss.
Proof.
  intros Hold Hgae Ha Ho Hg _.
  destruct (actor_loss_run categorical_entropy self batch _ _
              Hold Hgae Ha Ho Hg) as (loss & Hrun & Hval).
  exists loss. split; [done|]. rewrite Hval.
  apply Qcle_minus_compat, total_zip_with_le.
  intros x g _. apply surrogate_le_unclipped.
Qed.

(** X18.  What the ratio can gain is capped.  With a clip range that is
    not negative, on a batch with one element per row and stored
    probabilities that are not zero: when no advantage
    is negative the loss is at least [- (1 + eps) sum gae] minus the bonus,
    and when none is positive at least [- (1 - eps) sum gae] minus the
    bonus, whatever the probabilities under the current policy are. *)
Theorem actor_loss_gain_is_capped
    (categorical_entropy : list Qc → Qc) self
    (batch : @OnPolicyTransitionBatch Qc StateRep ActionRep Avail Mask)
    (action_probs_old gae : tagged (list Qc)) :
  b_action_probs batch = Some action_probs_old →
  b_gae batch = Some gae →
  length (b_action batch) = length (b_state batch) →
  length (data action_probs_old) = length (b_state batch) →
  length (data gae) = length (b_state batch) →
  Forall (λ p, p ≠ 0) (data action_probs_old) →
  0 <= epsilon self →
  ∃ loss,
    _actor_loss categorical_entropy self (OnPolicy batch) = inr loss ∧
    (Forall (λ g, 0 <= g) (data gae) →
     - ((1 + epsilon self) * total (data gae))
     - entropy_bonus_scaling self
       * categorical_entropy
           (data (get_action_prob self (b_state batch) (b_action batch)
                    (Some (b_curr_available_actions batch))
                    (Some (b_curr_unavailable_actions_mask batch))))
     <= data loss) ∧
    (Forall (λ g, g <= 0) (data gae) →
     - ((1 - epsilon self) * total (data gae))
     - entropy_bonus_scaling self
       * categorical_entropy
           (data (get_action_prob self (b_state batch) (b_action batch)
                    (Some (b_curr_available_actions batch))
                    (Some (b_curr_unavailable_actions_mask batch))))
     <= data loss).
Proof.
  intros Hold Hgae Ha Ho Hg _ He.
  destruct (actor_loss_run categorical_entropy self batch _ _
              Hold Hgae Ha Ho Hg) as (loss & Hrun & Hval).
  exists loss. split; [done|]. rewrite Hval.
  set (r := zip_with Qcdiv _ _).
  assert (length r = length (data gae)) as Hr.
  { unfold r, get_action_prob. cbn. rewrite !length_zip_with. lia. }
  split; intros Hsign; apply Qcle_minus_compat.
  - rewrite <-(total_zip_with_scale _ r) by done.
    apply total_zip_with_le. intros x g Hin.
    apply surrogate_le_upper. by eapply Forall_forall in Hsign.
  - rewrite <-(total_zip_with_scale _ r) by done.
    apply total_zip_with_le. intros x g Hin.
    apply surrogate_le_lower; [done|]. by eapply Forall_forall in Hsign.
Qed.


End exact.

(** *** Concrete runs *)

(** The hypotheses of [preprocess_replay_buffer_walks_backward] at a
    buffer of two transitions. *)
Lemma preprocess_replay_buffer_walks_backward_witness :
  ∃ annotated,
    preprocess_replay_buffer small_learner
      (mkReplayBuffer OnPolicyReplayBuffer small_memory) = inr annotated ∧
    length annotated = 2%nat.
Proof.
  assert (memory (mkReplayBuffer OnPolicyReplayBuffer small_memory) ≠ [])
    as Hne by discriminate.
  destruct (preprocess_replay_buffer_walks_backward small_learner
              (mkReplayBuffer OnPolicyReplayBuffer small_memory) eq_refl Hne)
    as (most_recent & annotated & _ & Hrun & _ & Hlen & _).
  exists annotated. split; [exact Hrun|exact Hlen].
Defined.

(** With discount and trace decay 1 and [V(s) = s]: the terminal
    transition has advantage [2 - 1 = 1], the one before it
    [(1 + 1 - 0) + 1 = 3], and the lambda-returns are 2 and 3. *)
Example small_memory_annotated :
  match preprocess_replay_buffer small_learner
          (mkReplayBuffer OnPolicyReplayBuffer small_memory) with
  | inr annotated =>
      Some ((λ t, (this <$> t_gae t, this <$> t_lam_return t)) <$> annotated)
  | inl _ => None
  end
  = Some [(Some (3 # 1)%Q, Some (3 # 1)%Q); (Some (1 # 1)%Q, Some (2 # 1)%Q)].
Proof. vm_compute. reflexivity. Qed.

(** [preprocess_replay_buffer_preconditions] at an empty on-policy buffer
    and at a buffer of another type. *)
Lemma preprocess_replay_buffer_preconditions_witness :
  preprocess_replay_buffer small_learner
    (mkReplayBuffer OnPolicyReplayBuffer []) = inl AssertionError ∧
  preprocess_replay_buffer small_learner
    (mkReplayBuffer FIFOOffPolicyReplayBuffer small_memory)
  = inl AssertionError.
Proof.
  split.
  - apply (proj1 (preprocess_replay_buffer_preconditions small_learner
                    (mkReplayBuffer OnPolicyReplayBuffer []))).
    right. reflexivity.
  - apply (proj1 (preprocess_replay_buffer_preconditions small_learner
                    (mkReplayBuffer FIFOOffPolicyReplayBuffer small_memory))).
    left. discriminate.
Defined.



(** The hypotheses of [actor_loss_is_clipped_surrogate] at one row with
    stored probability 1/4, ratio 2, advantage 1 and clip range 1/5: the
    loss is -6/5. *)
Lemma actor_loss_is_clipped_surrogate_witness :
  ∃ loss, _actor_loss no_entropy small_learner (OnPolicy small_batch)
          = inr loss ∧
          data loss = Q2Qc (-6 # 5).
Proof.
  assert (Forall (λ p : Qc, p ≠ 0%Qc) [Q2Qc (1 # 4)]) as Hnz
    by (constructor; [discriminate|constructor]).
  destruct (proj1 (actor_loss_is_clipped_surrogate no_entropy small_learner
                     small_batch _ _ eq_refl eq_refl eq_refl eq_refl eq_refl
                     Hnz))
    as (loss & Hrun & Hdata).
  exists loss. split; [exact Hrun|]. rewrite Hdata.
  apply Qc_is_canon. vm_compute. reflexivity.
Defined.

(** The hypothesis of [preprocess_replay_buffer_keeps_transitions] at the
    buffer of two transitions. *)
Lemma preprocess_replay_buffer_keeps_transitions_witness :
  ∃ annotated,
    preprocess_replay_buffer small_learner
      (mkReplayBuffer OnPolicyReplayBuffer small_memory) = inr annotated ∧
    erase <$> annotated = small_memory.
Proof.
  destruct (preprocess_replay_buffer_returns small_learner
              (mkReplayBuffer OnPolicyReplayBuffer small_memory) eq_refl)
    as [annotated Hrun]; [discriminate|].
  exists annotated. split; [exact Hrun|].
  exact (preprocess_replay_buffer_keeps_transitions _ _ _ Hrun).
Defined.

(** The hypotheses of [preprocess_replay_buffer_ignores_annotations] at
    the buffer of two transitions with and without stale annotations. *)
Lemma preprocess_replay_buffer_ignores_annotations_witness :
  preprocess_replay_buffer small_learner
    (mkReplayBuffer OnPolicyReplayBuffer
       [mkOnPolicyTransition 0%nat 0%nat 1%Qc 1%nat tt tt false
          (Some (Q2Qc 9)) (Some (Q2Qc 9)) (Some (Q2Qc 9));
        mkOnPolicyTransition 1%nat 0%nat (Q2Qc 2) 2%nat tt tt true
          None None None])
  = preprocess_replay_buffer small_learner
      (mkReplayBuffer OnPolicyReplayBuffer small_memory).
Proof.
  apply preprocess_replay_buffer_ignores_annotations; reflexivity.
Defined.

(** The hypothesis of [preprocess_replay_buffer_twice] at the buffer of
    two transitions. *)
Lemma preprocess_replay_buffer_twice_witness :
  ∃ annotated,
    preprocess_replay_buffer small_learner
      (mkReplayBuffer OnPolicyReplayBuffer small_memory) = inr annotated ∧
    preprocess_replay_buffer small_learner
      (mkReplayBuffer OnPolicyReplayBuffer annotated) = inr annotated.
Proof.
  destruct (preprocess_replay_buffer_returns small_learner
              (mkReplayBuffer OnPolicyReplayBuffer small_memory) eq_refl)
    as [annotated Hrun]; [discriminate|].
  exists annotated. split; [exact Hrun|].
  exact (preprocess_replay_buffer_twice _ _ _ Hrun).
Defined.

(** The hypotheses of [annotations_depend_on_the_future_only]: the buffer
    of two transitions, and its second transition alone. *)
Lemma annotations_depend_on_the_future_only_witness :
  ∃ annotated,
    preprocess_replay_buffer small_learner
      (mkReplayBuffer OnPolicyReplayBuffer small_memory) = inr annotated ∧
    preprocess_replay_buffer small_learner
      (mkReplayBuffer OnPolicyReplayBuffer
         [mkOnPolicyTransition 1%nat 0%nat (Q2Qc 2) 2%nat tt tt true
            None None None])
    = inr (drop 1 annotated).
Proof.
  destruct (preprocess_replay_buffer_returns small_learner
              (mkReplayBuffer OnPolicyReplayBuffer small_memory) eq_refl)
    as [annotated Hrun]; [discriminate|].
  exists annotated. split; [exact Hrun|].
  refine (annotations_depend_on_the_future_only small_learner
            (mkReplayBuffer OnPolicyReplayBuffer small_memory)
            [mkOnPolicyTransition 0%nat 0%nat 1%Qc 1%nat tt tt false
               None None None]
            [mkOnPolicyTransition 1%nat 0%nat (Q2Qc 2) 2%nat tt tt true
               None None None]
            annotated eq_refl _ Hrun).
  discriminate.
Defined.

(** [learn_preprocesses_first] at an empty buffer and at the buffer of
    two transitions. *)
Lemma learn_preprocesses_first_witness :
  learn small_learner counting_learn (mkReplayBuffer OnPolicyReplayBuffer [])
  = inl AssertionError ∧
  learn small_learner counting_learn
    (mkReplayBuffer OnPolicyReplayBuffer small_memory) = inr 2%nat.
Proof.
  split.
  - apply (proj1 (learn_preprocesses_first small_learner counting_learn
                    (mkReplayBuffer OnPolicyReplayBuffer []))).
    right. reflexivity.
  - vm_compute. reflexivity.
Defined.

(** [actor_loss_errors] at a batch without stored probabilities. *)
Lemma actor_loss_errors_witness :
  _actor_loss no_entropy small_learner (OnPolicy raw_batch)
  = inl AssertionError.
Proof.
  apply (proj1 (proj2 (actor_loss_errors no_entropy small_learner raw_batch))).
  reflexivity.
Defined.

(** The hypotheses of [lam_return_is_the_lambda_return] at the buffer of
    two transitions: the returns are 3 and 2. *)
Lemma lam_return_is_the_lambda_return_witness :
  ∃ annotated,
    preprocess_replay_buffer small_learner
      (mkReplayBuffer OnPolicyReplayBuffer small_memory) = inr annotated ∧
    t_lam_return <$> annotated = [Some (Q2Qc 3); Some (Q2Qc 2)].
Proof.
  destruct (preprocess_replay_buffer_returns small_learner
              (mkReplayBuffer OnPolicyReplayBuffer small_memory) eq_refl)
    as [annotated Hrun]; [discriminate|].
  exists annotated. split; [exact Hrun|].
  rewrite (lam_return_is_the_lambda_return small_learner _ annotated
             (mkOnPolicyTransition 1%nat 0%nat (Q2Qc 2) 2%nat tt tt true
                None None None) Hrun eq_refl).
  cbn. repeat f_equal; apply Qc_is_canon; vm_compute; reflexivity.
Defined.

(** The hypotheses of [terminal_transition_cuts_the_walk]: the buffer of
    two transitions, whose second is terminal, with and without a
    transition of the next episode after it. *)
Lemma terminal_transition_cuts_the_walk_witness :
  ∃ annotated annotated',
    preprocess_replay_buffer small_learner
      (mkReplayBuffer OnPolicyReplayBuffer small_memory) = inr annotated ∧
    preprocess_replay_buffer small_learner
      (mkReplayBuffer OnPolicyReplayBuffer (small_memory ++ [later_transition]))
    = inr annotated' ∧
    take 2 annotated = take 2 annotated'.
Proof.
  destruct (preprocess_replay_buffer_returns small_learner
              (mkReplayBuffer OnPolicyReplayBuffer small_memory) eq_refl)
    as [annotated Hrun]; [discriminate|].
  destruct (preprocess_replay_buffer_returns small_learner
              (mkReplayBuffer OnPolicyReplayBuffer
                 (small_memory ++ [later_transition])) eq_refl)
    as [annotated' Hrun']; [discriminate|].
  exists annotated, annotated'. split; [exact Hrun|]. split; [exact Hrun'|].
  exact (proj1 (terminal_transition_cuts_the_walk small_learner
                  (mkReplayBuffer OnPolicyReplayBuffer small_memory)
                  (mkReplayBuffer OnPolicyReplayBuffer
                     (small_memory ++ [later_transition]))
                  [mkOnPolicyTransition 0%nat 0%nat 1%Qc 1%nat tt tt false
                     None None None]
                  (mkOnPolicyTransition 1%nat 0%nat (Q2Qc 2) 2%nat tt tt true
                     None None None)
                  [] [later_transition] annotated annotated'
                  eq_refl eq_refl eq_refl Hrun Hrun')).
Defined.

(** The hypotheses of [actor_loss_is_pessimistic] at the small batch: the
    loss -6/5 is above the unclipped -2. *)
Lemma actor_loss_is_pessimistic_witness :
  ∃ loss, _actor_loss no_entropy small_learner (OnPolicy small_batch)
          = inr loss ∧
          (Q2Qc (-2) <= data loss)%Qc.
Proof.
  assert (Forall (λ p : Qc, p ≠ 0%Qc) [Q2Qc (1 # 4)]) as Hnz
    by (constructor; [discriminate|constructor]).
  destruct (actor_loss_is_pessimistic no_entropy small_learner small_batch
              _ _ eq_refl eq_refl eq_refl eq_refl eq_refl Hnz)
    as (loss & Hrun & Hle).
  exists loss. split; [exact Hrun|].
  eapply Qcle_trans; [|exact Hle].
  apply Qle_bool_iff. vm_compute. reflexivity.
Defined.

(** The hypotheses of [actor_loss_gain_is_capped] at the small batch. *)
Lemma actor_loss_gain_is_capped_witness :
  ∃ loss, _actor_loss no_entropy small_learner (OnPolicy small_batch)
          = inr loss ∧
          (Q2Qc (-6 # 5) <= data loss)%Qc.
Proof.
  assert (Forall (λ p : Qc, p ≠ 0%Qc) [Q2Qc (1 # 4)]) as Hnz
    by (constructor; [discriminate|constructor]).
  assert (0 <= epsilon small_learner)%Qc as He
    by (apply Qle_bool_iff; vm_compute; reflexivity).
  destruct (actor_loss_gain_is_capped no_entropy small_learner small_batch
              _ _ eq_refl eq_refl eq_refl eq_refl eq_refl Hnz He)
    as (loss & Hrun & Hpos & _).
  exists loss. split; [exact Hrun|].
  eapply Qcle_trans; [|apply Hpos].
  - apply Qle_bool_iff. vm_compute. reflexivity.
  - constructor; [|constructor]. apply Qle_bool_iff. vm_compute. reflexivity.
Defined.


End PPOFacts.
